(** * kasa-internal: a shallow embedding of [internal/kasa/kasa.go]

    The program drives TP-Link HS1xx smart plugs from key presses.  This
    development embeds the codec ([encrypt], [decrypt]), the mapping parser
    ([processMapping]), the per-plug command path ([sendCmd], [turnOn],
    [turnOff], [toggle], [systemInfo]), the start-up query pass
    ([getSystemInfo]) and the event loop of [main], and proves properties of
    them.

    Conventions.
    - A Go [[]byte] is a [list byte]; a Go [string] is a [string] (both are
      byte sequences); a Go [int] is a [Z].
    - Time is a [Z] count of nanoseconds read from one monotonic clock.
    - The network, the clock and the terminal are the environment: the
      behaviour of every connection attempt is drawn from an oracle held in
      the [world], so that a theorem quantified over worlds covers every
      behaviour of the devices. *)

From Stdlib Require Import ZArith List Bool Lia.
From Stdlib.Strings Require Import String Ascii Byte.
Import ListNotations.

#[local] Open Scope string_scope.
#[local] Open Scope list_scope.
#[local] Open Scope Z_scope.

(** ** Bytes and machine integers *)

Module Bytes.

(** Go's conversion [int(b)] of a byte. *)
Definition int_of_byte (b : byte) : Z := Z.of_N (Byte.to_N b).

(** Go's conversion [byte(n)] of an int: the low eight bits. *)
Definition byte_of_int (n : Z) : byte :=
  match Byte.of_N (Z.to_N (n mod 256)) with
  | Some b => b
  | None => x00
  end.

(** Go's conversion [uint32(n)] of an int: the low 32 bits. *)
Definition uint32 (n : Z) : Z := n mod 2 ^ 32.

(** [binary.BigEndian.PutUint32] into a fresh four-byte slice. *)
Definition PutUint32 (v : Z) : list byte :=
  [ byte_of_int (Z.shiftr v 24); byte_of_int (Z.shiftr v 16);
    byte_of_int (Z.shiftr v 8); byte_of_int v ].

(** [binary.BigEndian.Uint32]: the integer that four bytes denote. *)
Definition Uint32 (bs : list byte) : Z :=
  match bs with
  | [b0; b1; b2; b3] =>
      Z.lor (Z.shiftl (int_of_byte b0) 24)
        (Z.lor (Z.shiftl (int_of_byte b1) 16)
           (Z.lor (Z.shiftl (int_of_byte b2) 8) (int_of_byte b3)))
  | _ => 0
  end.

End Bytes.
Import Bytes.

(** ** The codec *)

(** The body of the loop of [encrypt]: [key] is the running key, an [int]. *)
Fixpoint encrypt_loop (key : Z) (bx : list byte) : list byte :=
  match bx with
  | [] => []
  | p :: rest =>
      let b := Z.lxor key (int_of_byte p) in
      byte_of_int b :: encrypt_loop b rest
  end.

Definition encrypt (bx : list byte) : list byte :=
  PutUint32 (uint32 (Z.of_nat (List.length bx))) ++ encrypt_loop 171 bx.

(** The body of the loop of [decrypt], over the bytes from index 4 on. *)
Fixpoint decrypt_loop (key : Z) (bx : list byte) : list byte :=
  match bx with
  | [] => []
  | c :: rest =>
      let b := Z.lxor key (int_of_byte c) in
      byte_of_int b :: decrypt_loop (int_of_byte c) rest
  end.

(** [for i := 4; i < len(bx); i++]: the loop visits exactly [skipn 4 bx]. *)
Definition decrypt (bx : list byte) : list byte :=
  decrypt_loop 171 (skipn 4 bx).

(** ** Library functions used by the parser

    [strings.Split] and [strconv.Atoi] belong to Go's standard library; they
    are written out here as Go documents and implements them. *)

(** [strings.Split(s, sep)] for a separator of one byte.  The result is
    never empty: a string without the separator is returned whole. *)
Fixpoint Split (s : string) (sep : ascii) : list string :=
  match s with
  | EmptyString => [EmptyString]
  | String c rest =>
      if Ascii.eqb c sep then EmptyString :: Split rest sep
      else
        match Split rest sep with
        | [] => [String c EmptyString]
        | h :: t => String c h :: t
        end
  end.

Inductive NumError : Type := ErrSyntax | ErrRange.

Definition is_digit (c : ascii) : bool :=
  let n := Z.of_N (N_of_ascii c) in (48 <=? n) && (n <=? 57).

(** The unsigned value of a run of decimal digits, read from the left as
    [strconv.ParseUint] reads it: a byte that is no digit is a syntax
    error, a value that leaves 64 bits is a range error, and the one that
    comes first decides. *)
Fixpoint digits (acc : Z) (s : string) : Z + NumError :=
  match s with
  | EmptyString => inl acc
  | String c rest =>
      if is_digit c then
        let acc' := acc * 10 + (Z.of_N (N_of_ascii c) - 48) in
        if acc' <=? 2 ^ 64 - 1 then digits acc' rest else inr ErrRange
      else inr ErrSyntax
  end.

(** [strconv.Atoi] on a platform whose [int] has 64 bits: an optional sign,
    then at least one decimal digit and nothing else; a value that does not
    fit in an [int] is a range error. *)
Definition Atoi (s : string) : Z + NumError :=
  match s with
  | EmptyString => inr ErrSyntax
  | String c rest =>
      let neg := Ascii.eqb c "-" in
      let body := if neg || Ascii.eqb c "+" then rest else s in
      match body with
      | EmptyString => inr ErrSyntax
      | _ =>
          match digits 0 body with
          | inr e => inr e
          | inl v =>
              let n := if neg then - v else v in
              if (- 2 ^ 63 <=? n) && (n <=? 2 ^ 63 - 1) then inl n
              else inr ErrRange
          end
      end
  end.

(** ** Plugs *)

(** The struct [plug].  The mutex is not a field of the embedding: the
    program is run by one goroutine, and [sendCmd] records where it locks
    and unlocks.  [lastCmd] counts nanoseconds from the zero [time.Time]. *)
Record plug : Type := mkPlug {
  IPAddress : string;
  TriggerKey : Z;
  Model : string;
  Name : string;
  On : bool;
  lastCmd : Z
}.

Definition set_Name (v : string) (p : plug) : plug :=
  mkPlug (IPAddress p) (TriggerKey p) (Model p) v (On p) (lastCmd p).
Definition set_Model (v : string) (p : plug) : plug :=
  mkPlug (IPAddress p) (TriggerKey p) v (Name p) (On p) (lastCmd p).
Definition set_On (v : bool) (p : plug) : plug :=
  mkPlug (IPAddress p) (TriggerKey p) (Model p) (Name p) v (lastCmd p).
Definition set_lastCmd (v : Z) (p : plug) : plug :=
  mkPlug (IPAddress p) (TriggerKey p) (Model p) (Name p) (On p) v.

(** The fields of the struct [info] that the program reads; the fourteen
    others are decoded and never used. *)
Record info : Type := mkInfo {
  Alias : string;
  info_Model : string;
  RelayState : Z
}.

(** [system{}]: the zero value. *)
Definition system_zero : info := mkInfo EmptyString EmptyString 0.

Definition int2bool (r : Z) : bool := r =? 1.

(** ** The mapping parser *)

Inductive panic : Type :=
| IndexOutOfRange
| PanicNumError (e : NumError)
| PanicInit.

Inductive result (A : Type) : Type :=
| Returns (a : A)
| Panics (p : panic).
Arguments Returns {A} a.
Arguments Panics {A} p.

(** The [range] loop of [processMapping]; [plugs] is the slice built so far.
    [IPKeyPair[1]] is read first and panics on a pair without a colon;
    [IPKeyPair[0]] always exists. *)
Fixpoint processMapping_loop (mappingSlice : list string) (plugs : list plug)
  : result (list plug) :=
  match mappingSlice with
  | [] => Returns plugs
  | mapping :: rest =>
      let IPKeyPair := Split mapping ":" in
      match nth_error IPKeyPair 1 with
      | None => Panics IndexOutOfRange
      | Some key =>
          match Atoi key with
          | inr err => Panics (PanicNumError err)
          | inl triggerKey =>
              match nth_error IPKeyPair 0 with
              | None => Panics IndexOutOfRange
              | Some ip =>
                  processMapping_loop rest
                    (plugs ++ [mkPlug ip triggerKey EmptyString EmptyString false 0])
              end
          end
      end
  end.

Definition processMapping (m : string) : result (list plug) :=
  processMapping_loop (Split m ",") [].

(** ** The environment *)

(** [time.Duration] constants, in nanoseconds. *)
Definition Millisecond : Z := 1000000.
Definition Second : Z := 1000 * Millisecond.
Definition maxDuration : Z := 2 ^ 63 - 1.
Definition minDuration : Z := - 2 ^ 63.

(** [t.Sub(u)]: the difference, saturated to the range of a [Duration]. *)
Definition Sub (t u : Z) : Z := Z.max minDuration (Z.min maxDuration (t - u)).

(** How far a connection attempt gets.  [Reads reply] is the case in which
    the one call of [conn.Read] returns without error; [reply] is what the
    connection has for that call, which may be a part of what the device
    sends, and of which the call takes 2048 bytes at most. *)
Inductive netResult : Type :=
| DialFails
| SetDeadlineFails
| WriteFails
| ReadFails
| Reads (reply : list byte).

(** What the environment does during one call of [sendCmd]: how long the
    sleep overshoots, how long each blocking call takes, and the outcome. *)
Record exchange : Type := mkExchange {
  sleepOver : N;
  dialTime : N;
  writeTime : N;
  readTime : N;
  outcome : netResult
}.

(** The world: the clock, the number of exchanges so far, and the oracle
    that gives the behaviour of the n-th exchange. *)
Record world : Type := mkWorld {
  now : Z;
  conns : nat;
  net : nat -> exchange
}.

Inductive error : Type :=
| ErrConnecting
| ErrSettingTimeout
| ErrWritingPayload
| ErrRead
| ErrUnmarshal.

(** Lines written to standard output. *)
Inductive output : Type :=
| OutUsage
| OutListening
| OutError (e : error)
| OutFound (name : string)
| OutToggled (name : string) (t : Z)
| OutCouldNotToggle (name : string) (e : error).

(** What the program does to the outside, each event stamped with the clock
    at which it starts. *)
Inductive event : Type :=
| EvLock
| EvUnlock
| EvSleep (d : Z)
| EvDial (addr : string)
| EvSetDeadline (deadline : Z)
| EvWrite (payload : list byte)
| EvRead
| EvClose
| EvSync
| EvPrint (o : output).

Definition trace : Type := list (Z * event).

(** ** A state-and-trace monad *)

Definition M (A : Type) : Type := world -> A * world * trace.

Definition ret {A} (a : A) : M A := fun w => (a, w, []).

Definition bind {A B} (m : M A) (k : A -> M B) : M B :=
  fun w =>
    let '(a, w1, t1) := m w in
    let '(b, w2, t2) := k a w1 in
    (b, w2, t1 ++ t2).

Notation "x <- m ;; k" := (bind m (fun x => k))
  (at level 61, m at next level, right associativity).
Notation "' pat <- m ;; k" := (bind m (fun x => match x with pat => k end))
  (at level 61, pat pattern, m at next level, right associativity).
Notation "m ;; k" := (bind m (fun _ => k))
  (at level 61, right associativity).

(** [time.Now()]. *)
Definition Now : M Z := fun w => (now w, w, []).

Definition emit (e : event) : M unit := fun w => (tt, w, [(now w, e)]).

(** A blocking call that takes [d] nanoseconds. *)
Definition elapse (d : Z) : M unit :=
  fun w => (tt, mkWorld (now w + d) (conns w) (net w), []).

(** The behaviour of the exchange that starts now. *)
Definition nextExchange : M exchange :=
  fun w => (net w (conns w), mkWorld (now w) (S (conns w)) (net w), []).

Definition Println (o : output) : M unit := emit (EvPrint o).

(** [time.Sleep(d)]: at least [d]. *)
Definition Sleep (d : Z) (over : N) : M unit :=
  emit (EvSleep d) ;; elapse (d + Z.of_N over).

(** ** The command path *)

(** [[]byte(data)]. *)
Definition bytes_of (data : string) : list byte := list_byte_of_string data.

(** [make([]byte, 2048)], returned as it is on every failure. *)
Definition res_buffer : list byte := repeat x00 2048.

(** The five ways through the body of [sendCmd] after the rate guard, one
    per outcome; [conn.Close()] is deferred once the dial has succeeded. *)
Definition sendCmd_exchange (p : plug) (data : string) (x : exchange)
  : M (list byte * option error) :=
  emit (EvDial (IPAddress p ++ ":9999")) ;;
  elapse (Z.of_N (dialTime x)) ;;
  match outcome x with
  | DialFails => ret (res_buffer, Some ErrConnecting)
  | SetDeadlineFails =>
      t <- Now ;;
      emit (EvSetDeadline (t + 5 * Second)) ;;
      emit EvClose ;;
      ret (res_buffer, Some ErrSettingTimeout)
  | WriteFails =>
      t <- Now ;;
      emit (EvSetDeadline (t + 5 * Second)) ;;
      emit (EvWrite (encrypt (bytes_of data))) ;;
      elapse (Z.of_N (writeTime x)) ;;
      emit EvClose ;;
      ret (res_buffer, Some ErrWritingPayload)
  | ReadFails =>
      t <- Now ;;
      emit (EvSetDeadline (t + 5 * Second)) ;;
      emit (EvWrite (encrypt (bytes_of data))) ;;
      elapse (Z.of_N (writeTime x)) ;;
      emit EvRead ;;
      elapse (Z.of_N (readTime x)) ;;
      emit EvClose ;;
      ret (res_buffer, Some ErrRead)
  | Reads reply =>
      t <- Now ;;
      emit (EvSetDeadline (t + 5 * Second)) ;;
      emit (EvWrite (encrypt (bytes_of data))) ;;
      elapse (Z.of_N (writeTime x)) ;;
      emit EvRead ;;
      elapse (Z.of_N (readTime x)) ;;
      emit EvClose ;;
      ret (decrypt (firstn 2048 reply), None)
  end.

(** [sendCmd]: lock, sleep when the last command is less than 500 ms old,
    exchange, and on the way out stamp [lastCmd] and unlock. *)
Definition sendCmd (p : plug) (data : string)
  : M (plug * (list byte * option error)) :=
  x <- nextExchange ;;
  emit EvLock ;;
  t <- Now ;;
  (if Sub t (lastCmd p) <? Millisecond * 500
   then Sleep (Millisecond * 500) (sleepOver x)
   else ret tt) ;;
  r <- sendCmd_exchange p data x ;;
  t' <- Now ;;
  emit EvUnlock ;;
  ret (set_lastCmd t' p, r).

(** The JSON commands.  [quoted s] is [s] between two double quotes. *)
Definition quoted (s : string) : string :=
  String (ascii_of_nat 34) (s ++ String (ascii_of_nat 34) EmptyString).

Definition payload_sysinfo : string :=
  "{" ++ quoted "system" ++ ":{" ++ quoted "get_sysinfo" ++ ":{}}}".

Definition payload_relay (state : string) : string :=
  "{" ++ quoted "system" ++ ":{" ++ quoted "set_relay_state" ++ ":{"
      ++ quoted "state" ++ ":" ++ state ++ "}}}".

Definition turnOn (p : plug) : M (plug * option error) :=
  '(p', (_, err)) <- sendCmd p (payload_relay "1") ;;
  ret (p', err).

Definition turnOff (p : plug) : M (plug * option error) :=
  '(p', (_, err)) <- sendCmd p (payload_relay "0") ;;
  ret (p', err).

(** [toggle]: the branch is chosen by the cached [On]; the flag is written
    after the command returns, whatever it returned. *)
Definition toggle (p : plug) : M (plug * option error) :=
  if On p then
    '(p1, err) <- turnOff p ;;
    let p2 := set_On false p1 in
    t <- Now ;;
    Println (OutToggled (Name p2) t) ;;
    ret (p2, err)
  else
    '(p1, err) <- turnOn p ;;
    let p2 := set_On true p1 in
    t <- Now ;;
    Println (OutToggled (Name p2) t) ;;
    ret (p2, err).

(** ** The terminal *)

(** termbox-go: [type Key uint16], with [KeyCtrlC = 0x03]; the conversion
    [term.Key(n)] of an [int] keeps the low sixteen bits. *)
Definition Key_of_int (n : Z) : Z := n mod 2 ^ 16.
Definition KeyCtrlC : Z := 3.

Inductive EventType : Type :=
| EventKey
| EventResize
| EventMouse
| EventError
| EventInterrupt
| EventRaw
| EventNone.

Definition EventType_eqb (a b : EventType) : bool :=
  match a, b with
  | EventKey, EventKey | EventResize, EventResize | EventMouse, EventMouse
  | EventError, EventError | EventInterrupt, EventInterrupt
  | EventRaw, EventRaw | EventNone, EventNone => true
  | _, _ => false
  end.

(** A [term.Event] as [main] reads it, with the time [PollEvent] blocked
    before delivering it. *)
Record Event : Type := mkEvent {
  Type_ : EventType;
  Key : Z;
  wait : N
}.

(** ** The start-up query pass and the event loop *)

Section Program.

(** [json.Unmarshal] into a [system]: [None] when it returns an error. *)
Variable Unmarshal : list byte -> option info.

Definition systemInfo (p : plug) : M (plug * (info * option error)) :=
  '(p', (results, err)) <- sendCmd p payload_sysinfo ;;
  match err with
  | Some e => ret (p', (system_zero, Some e))
  | None =>
      match Unmarshal results with
      | None => ret (p', (system_zero, Some ErrUnmarshal))
      | Some i => ret (p', (i, None))
      end
  end.

(** [getSystemInfo]: the plugs are pointers, so the slice that the caller
    holds sees every update; the function itself returns nothing, and on
    the first error it prints the error and returns. *)
Fixpoint getSystemInfo (plugs : list plug) : M (list plug) :=
  match plugs with
  | [] => ret []
  | p :: rest =>
      '(p1, (i, err)) <- systemInfo p ;;
      match err with
      | Some e =>
          Println (OutError e) ;;
          ret (p1 :: rest)
      | None =>
          let p2 := set_On (int2bool (RelayState i))
                      (set_Model (info_Model i) (set_Name (Alias i) p1)) in
          Println (OutFound (Name p2)) ;;
          rest' <- getSystemInfo rest ;;
          ret (p2 :: rest')
      end
  end.

(** The inner [range] loop of [main] for one key event. *)
Fixpoint range_plugs (key : Z) (plugs : list plug) : M (list plug) :=
  match plugs with
  | [] => ret []
  | p :: rest =>
      if Key_of_int (TriggerKey p) =? key then
        emit EvSync ;;
        '(p', err) <- toggle p ;;
        match err with
        | Some e => Println (OutCouldNotToggle (Name p') e)
        | None => ret tt
        end ;;
        rest' <- range_plugs key rest ;;
        ret (p' :: rest')
      else
        rest' <- range_plugs key rest ;;
        ret (p :: rest')
  end.

(** What one turn of the [for] loop decides. *)
Inductive turn : Type :=
| Continue (plugs : list plug)
| Return.

(** One turn of the [for] loop of [main], for the event that
    [term.PollEvent] delivers. *)
Definition loop_body (event : Event) (plugs : list plug) : M turn :=
  Println OutListening ;;
  elapse (Z.of_N (wait event)) ;;
  if negb (EventType_eqb (Type_ event) EventKey) then ret (Continue plugs)
  else if Key event =? KeyCtrlC then ret Return
  else
    plugs' <- range_plugs (Key event) plugs ;;
    ret (Continue plugs').

(** How a run over a finite list of events ends. *)
Inductive ending : Type :=
| Returned
| Polling
| Exited (code : Z)
| Panicked (p : panic).

(** The [for] loop over the events that arrive; when they are used up
    the program is blocked in [term.PollEvent]. *)
Fixpoint listen (events : list Event) (plugs : list plug)
  : M (list plug * ending) :=
  match events with
  | [] => Println OutListening ;; ret (plugs, Polling)
  | event :: more =>
      r <- loop_body event plugs ;;
      match r with
      | Return => ret (plugs, Returned)
      | Continue plugs' => listen more plugs'
      end
  end.

(** [main], given [os.Args], whether [term.Init] succeeds, and the events
    that arrive. *)
Definition main (Args : list string) (initOk : bool) (events : list Event)
  : M (list plug * ending) :=
  if negb (Nat.eqb (List.length Args) 2) then
    Println OutUsage ;; ret ([], Exited 1)
  else if negb initOk then ret ([], Panicked PanicInit)
  else
    match processMapping (nth 1 Args EmptyString) with
    | Panics e => ret ([], Panicked e)
    | Returns plugs =>
        plugs1 <- getSystemInfo plugs ;;
        listen events plugs1
    end.

End Program.

(** ** Reading traces and stating the properties *)

(** The key in force when the plaintext byte at index [i] is enciphered, read
    off the output: 171 at first, then the ciphertext byte just produced. *)
Definition key_before (out : list byte) (i : nat) : Z :=
  match i with
  | O => 171
  | S j => int_of_byte (nth (4 + j) out x00)
  end.

(** The durations passed to [time.Sleep]. *)
Fixpoint sleeps (evs : trace) : list Z :=
  match evs with
  | [] => []
  | (_, EvSleep d) :: rest => d :: sleeps rest
  | _ :: rest => sleeps rest
  end.

(** The payloads handed to [conn.Write], each with the time of the call. *)
Fixpoint writes (evs : trace) : list (Z * list byte) :=
  match evs with
  | [] => []
  | (t, EvWrite payload) :: rest => (t, payload) :: writes rest
  | _ :: rest => writes rest
  end.

(** The addresses passed to [net.Dial]. *)
Fixpoint dials (evs : trace) : list string :=
  match evs with
  | [] => []
  | (_, EvDial addr) :: rest => addr :: dials rest
  | _ :: rest => dials rest
  end.

(** The names in the lines that [toggle] prints. *)
Fixpoint toggled (evs : trace) : list string :=
  match evs with
  | [] => []
  | (_, EvPrint (OutToggled name _)) :: rest => name :: toggled rest
  | _ :: rest => toggled rest
  end.

(** The errors that [getSystemInfo] prints. *)
Fixpoint errors (evs : trace) : list error :=
  match evs with
  | [] => []
  | (_, EvPrint (OutError e)) :: rest => e :: errors rest
  | _ :: rest => errors rest
  end.

(** The names in the lines that [getSystemInfo] prints for a plug found. *)
Fixpoint founds (evs : trace) : list string :=
  match evs with
  | [] => []
  | (_, EvPrint (OutFound name)) :: rest => name :: founds rest
  | _ :: rest => founds rest
  end.

(** The mutex events. *)
Fixpoint locks (evs : trace) : list event :=
  match evs with
  | [] => []
  | (_, EvLock) :: rest => EvLock :: locks rest
  | (_, EvUnlock) :: rest => EvUnlock :: locks rest
  | _ :: rest => locks rest
  end.

(** The address that [sendCmd] dials for a plug. *)
Definition addr_of (p : plug) : string := IPAddress p ++ ":9999".

(** The error that [sendCmd] returns for an outcome of the exchange. *)
Definition error_of (r : netResult) : option error :=
  match r with
  | DialFails => Some ErrConnecting
  | SetDeadlineFails => Some ErrSettingTimeout
  | WriteFails => Some ErrWritingPayload
  | ReadFails => Some ErrRead
  | Reads _ => None
  end.

(** Whether the exchange gets as far as [conn.Write]. *)
Definition reaches_write (r : netResult) : bool :=
  match r with
  | DialFails | SetDeadlineFails => false
  | WriteFails | ReadFails | Reads _ => true
  end.

(** The comparison of [main]: [term.Key(plug.TriggerKey) == event.Key]. *)
Definition matches (key : Z) (p : plug) : bool :=
  Key_of_int (TriggerKey p) =? key.

(** The parts of a pair of the mapping. *)
Definition parts_of (entry : string) : list string := Split entry ":".

Definition parses (key : string) : bool :=
  match Atoi key with
  | inl _ => true
  | inr _ => false
  end.

(** A malformed pair, in the words of the specification: it does not split
    into exactly two parts, or its key does not parse. *)
Definition malformed_spec (entry : string) : bool :=
  negb (Nat.eqb (List.length (parts_of entry)) 2)
  || negb (parses (nth 1 (parts_of entry) EmptyString)).

(** A pair that [processMapping] rejects: it has no second part, or its
    second part does not parse.  Parts after the second are not looked at. *)
Definition rejected (entry : string) : bool :=
  (List.length (parts_of entry) <? 2)%nat
  || negb (parses (nth 1 (parts_of entry) EmptyString)).

(** The plug that [processMapping] builds from a pair it accepts. *)
Definition plug_of_entry (entry : string) : plug :=
  mkPlug (nth 0 (parts_of entry) EmptyString)
    (match Atoi (nth 1 (parts_of entry) EmptyString) with
     | inl k => k
     | inr _ => 0
     end)
    EmptyString EmptyString false 0.

(** What one turn of the loop of [main] does to a plug: a plug whose key
    matches has [On] flipped and [lastCmd] renewed, any other is kept. *)
Definition toggled_or_kept (key : Z) (p p' : plug) : Prop :=
  if matches key p
  then On p' = negb (On p) /\ p' = set_lastCmd (lastCmd p') (set_On (On p') p)
  else p' = p.

(** ** Concrete plugs and worlds *)

Definition plug_a : plug :=
  mkPlug "10.0.0.5" 49 EmptyString EmptyString false 0.
Definition plug_b : plug :=
  mkPlug "10.0.0.6" 50 EmptyString EmptyString false 0.
Definition plug_c : plug :=
  mkPlug "10.0.0.7" 51 EmptyString EmptyString false 0.

(** A plug already found, bound to the integer 65549 = 65536 + 13. *)
Definition plug_wide : plug := mkPlug "10.0.0.5" 65549 "HS105" "lamp" false 0.

(** A reading of the clock in the year 2025, counted from the zero
    [time.Time]. *)
Definition startup : Z := 63900000000 * Second.

(** A world whose clock reads [t] and whose n-th exchange ends as [f n],
    every blocking call returning at once. *)
Definition world_of (t : Z) (f : nat -> netResult) : world :=
  mkWorld t 0 (fun n => mkExchange 0 0 0 0 (f n)).

(** The reply of a plug that reports no field: the JSON object of no
    member, enciphered. *)
Definition reply_empty_object : list byte := encrypt (bytes_of "{}").

(** A decoder that agrees with [json.Unmarshal] on the one document used
    here: the object of no member decodes to the zero [system]. *)
Definition Unmarshal_empty_object (bs : list byte) : option info :=
  if String.eqb (string_of_list_byte bs) "{}" then Some system_zero else None.

(** The device answers the first query and cannot be reached afterwards. *)
Definition second_fails (n : nat) : netResult :=
  match n with
  | O => Reads reply_empty_object
  | _ => DialFails
  end.

(** ** Further vocabulary for the properties *)

(** Whether the byte [c] occurs in [s]. *)
Fixpoint occurs (c : ascii) (s : string) : bool :=
  match s with
  | EmptyString => false
  | String c' rest => Ascii.eqb c' c || occurs c rest
  end.

(** A plug as [processMapping] creates it: no name, no model, off, and
    never sent a command. *)
Definition fresh (p : plug) : Prop :=
  Model p = EmptyString /\ Name p = EmptyString /\ On p = false /\
  lastCmd p = 0.

(** The times at which [conn.Close] is called. *)
Fixpoint closes (evs : trace) : list Z :=
  match evs with
  | [] => []
  | (t, EvClose) :: rest => t :: closes rest
  | _ :: rest => closes rest
  end.

(** The times at which [conn.Read] is called. *)
Fixpoint reads (evs : trace) : list Z :=
  match evs with
  | [] => []
  | (t, EvRead) :: rest => t :: reads rest
  | _ :: rest => reads rest
  end.

(** The command that [toggle] sends for a cached flag. *)
Definition relay_command (on : bool) : string :=
  payload_relay (if on then "0" else "1").

(** The event on which the loop of [main] returns: the key Ctrl-C. *)
Definition is_interrupt (e : Event) : bool :=
  EventType_eqb (Type_ e) EventKey && (Key e =? KeyCtrlC).

(** What the event loop may do to a plug: write [On] and [lastCmd], and
    not even that for a plug bound to Ctrl-C. *)
Definition kept_by_loop (p p' : plug) : Prop :=
  p' = set_lastCmd (lastCmd p') (set_On (On p') p) /\
  (matches KeyCtrlC p = true -> p' = p).

(** Each time of the list is at least 500 ms after the one before it. *)
Fixpoint spaced (ts : list Z) : Prop :=
  match ts with
  | [] => True
  | t :: rest =>
      match rest with
      | [] => True
      | t' :: _ => t + Millisecond * 500 <= t'
      end /\ spaced rest
  end.

(** ** The earlier variant of the program

    The repository holds a second, earlier [main] package with its own
    codec; it keeps the key in a [byte] and deciphers in place, and its
    caller cuts the length prefix off before deciphering. *)

Module Earlier.

(** [a ^ b] on bytes. *)
Definition xor_byte (a b : byte) : byte :=
  byte_of_int (Z.lxor (int_of_byte a) (int_of_byte b)).

(** The loop that fills [payload]: [payload[i] = plaintext[i] ^ key]. *)
Fixpoint encrypt_loop (key : byte) (plaintext : list byte) : list byte :=
  match plaintext with
  | [] => []
  | p :: rest =>
      let c := xor_byte p key in
      c :: encrypt_loop c rest
  end.

Definition encrypt (plaintext : string) : list byte :=
  PutUint32 (uint32 (Z.of_nat (List.length (bytes_of plaintext))))
    ++ encrypt_loop xab (bytes_of plaintext).

(** The loop of [decrypt]; the slice is overwritten and returned, and no
    caller reads the argument again. *)
Fixpoint decrypt_loop (key : byte) (ciphertext : list byte) : list byte :=
  match ciphertext with
  | [] => []
  | c :: rest => xor_byte c key :: decrypt_loop c rest
  end.

Definition decrypt (ciphertext : list byte) : list byte :=
  decrypt_loop xab ciphertext.

(** How the lines of [systemInfo] after the call of [send] end: with a
    result, or in the run-time panic of the slice expression [reading[4:]]
    on fewer than four bytes. *)
Inductive after_send : Type :=
| Done (i : info) (err : option error)
| SliceBoundsPanic.

(** [systemInfo], given what [send] returned. *)
Definition systemInfo (Unmarshal : list byte -> option info)
           (reading : list byte) (err : option error) : after_send :=
  match err with
  | Some e => Done system_zero (Some e)
  | None =>
      if (List.length reading <? 4)%nat then SliceBoundsPanic
      else
        match Unmarshal (decrypt (skipn 4 reading)) with
        | None => Done system_zero (Some ErrUnmarshal)
        | Some i => Done i None
        end
  end.

End Earlier.

(** ** The version string of the HTTP service *)

(** [strings.Cut(s, sep)] for a separator of one byte: the text before the
    first separator, the text after it, and whether there is one; without a
    separator the text before is the whole string. *)
Fixpoint Cut (s : string) (sep : ascii) : string * string * bool :=
  match s with
  | EmptyString => (EmptyString, EmptyString, false)
  | String c rest =>
      if Ascii.eqb c sep then (EmptyString, rest, true)
      else
        let '(before, after, found) := Cut rest sep in
        (String c before, after, found)
  end.

Definition parseVersion (versionString : string) : string * string :=
  let '(version, commit, found) := Cut versionString "_" in
  if negb found then (EmptyString, EmptyString) else (version, commit).

Fixpoint contains (s : list string) (e : string) : bool :=
  match s with
  | [] => false
  | a :: rest => if String.eqb a e then true else contains rest e
  end.

(** ** The commands as the source spells them

    The three JSON texts of [systemInfo], [turnOn] and [turnOff], byte by
    byte in ASCII: 7b and 7d are the braces, 22 the double quote, 3a the
    colon, 5f the underscore, 30 and 31 the digits 0 and 1.  In order they
    are the texts
      {"system":{"get_sysinfo":{}}}
      {"system":{"set_relay_state":{"state":1}}}
      {"system":{"set_relay_state":{"state":0}}}
    of lines 143, 159 and 165 of the source. *)
Definition json_get_sysinfo : list byte :=
  [x7b; x22; x73; x79; x73; x74; x65; x6d; x22; x3a; x7b; x22; x67; x65;
   x74; x5f; x73; x79; x73; x69; x6e; x66; x6f; x22; x3a; x7b; x7d; x7d;
   x7d].

Definition json_relay_on : list byte :=
  [x7b; x22; x73; x79; x73; x74; x65; x6d; x22; x3a; x7b; x22; x73; x65;
   x74; x5f; x72; x65; x6c; x61; x79; x5f; x73; x74; x61; x74; x65; x22;
   x3a; x7b; x22; x73; x74; x61; x74; x65; x22; x3a; x31; x7d; x7d; x7d].

Definition json_relay_off : list byte :=
  [x7b; x22; x73; x79; x73; x74; x65; x6d; x22; x3a; x7b; x22; x73; x65;
   x74; x5f; x72; x65; x6c; x61; x79; x5f; x73; x74; x61; x74; x65; x22;
   x3a; x7b; x22; x73; x74; x61; x74; x65; x22; x3a; x30; x7d; x7d; x7d].

(** ** Queries and what they return *)

(** What the query that gets the exchange [x] returns: the decoded reply,
    or the error of the step at which the exchange or the decoding fails.
    The reply is what the one call of [conn.Read] delivers, of which the
    buffer keeps 2048 bytes. *)
Definition query_result (Unmarshal : list byte -> option info)
           (x : exchange) : info + error :=
  match outcome x with
  | DialFails => inr ErrConnecting
  | SetDeadlineFails => inr ErrSettingTimeout
  | WriteFails => inr ErrWritingPayload
  | ReadFails => inr ErrRead
  | Reads reply =>
      match Unmarshal (decrypt (firstn 2048 reply)) with
      | Some i => inl i
      | None => inr ErrUnmarshal
      end
  end.

(** Among [m] queries that get the exchanges [f k], [f (k + 1)], ..., the
    number of those before the first that fails. *)
Fixpoint successes (Unmarshal : list byte -> option info)
         (f : nat -> exchange) (k m : nat) : nat :=
  match m with
  | O => O
  | S m' =>
      match query_result Unmarshal (f k) with
      | inl _ => S (successes Unmarshal f (S k) m')
      | inr _ => O
      end
  end.

(** The calls made on the network during a run, in the order of the
    trace. *)
Inductive netop : Type := OpDial | OpSetDeadline | OpWrite | OpRead | OpClose.

Fixpoint ops (evs : trace) : list netop :=
  match evs with
  | [] => []
  | (_, EvDial _) :: rest => OpDial :: ops rest
  | (_, EvSetDeadline _) :: rest => OpSetDeadline :: ops rest
  | (_, EvWrite _) :: rest => OpWrite :: ops rest
  | (_, EvRead) :: rest => OpRead :: ops rest
  | (_, EvClose) :: rest => OpClose :: ops rest
  | _ :: rest => ops rest
  end.

(** * Properties *)

(** ** Bytes *)

Lemma int_of_byte_range (b : byte) : 0 <= int_of_byte b < 256.
Proof.
  unfold int_of_byte. pose proof (Byte.to_N_bounded b). lia.
Qed.

Lemma byte_of_int_of_byte (b : byte) : byte_of_int (int_of_byte b) = b.
Proof.
  unfold byte_of_int, int_of_byte.
  pose proof (Byte.to_N_bounded b) as Hb.
  rewrite Z.mod_small by lia.
  rewrite N2Z.id, Byte.of_to_N. reflexivity.
Qed.

Lemma int_of_byte_of_int_mod (n : Z) : int_of_byte (byte_of_int n) = n mod 256.
Proof.
  unfold byte_of_int, int_of_byte.
  pose proof (Z.mod_pos_bound n 256 ltac:(lia)) as Hm.
  destruct (Byte.of_N (Z.to_N (n mod 256))) as [b|] eqn:E.
  - apply Byte.to_of_N in E. rewrite E. lia.
  - apply Byte.of_N_None_iff in E. lia.
Qed.

Lemma int_of_byte_of_int (n : Z) :
  0 <= n < 256 -> int_of_byte (byte_of_int n) = n.
Proof.
  intros Hn. rewrite int_of_byte_of_int_mod. apply Z.mod_small. exact Hn.
Qed.

Lemma log2_byte (a : Z) : 0 <= a < 256 -> Z.log2 a < 8.
Proof.
  intros Ha. destruct (Z.eq_dec a 0) as [->|Hne]; [cbn; lia|].
  apply Z.log2_lt_pow2; [lia|]. change (2 ^ 8) with 256. lia.
Qed.

Lemma lxor_byte_range (a b : Z) :
  0 <= a < 256 -> 0 <= b < 256 -> 0 <= Z.lxor a b < 256.
Proof.
  intros Ha Hb.
  assert (H0 : 0 <= Z.lxor a b) by (apply Z.lxor_nonneg; lia).
  split; [exact H0|].
  destruct (Z.eq_dec (Z.lxor a b) 0) as [E|E]; [lia|].
  change 256 with (2 ^ 8).
  apply Z.log2_lt_pow2; [lia|].
  pose proof (Z.log2_lxor a b ltac:(lia) ltac:(lia)) as Hl.
  pose proof (log2_byte a Ha). pose proof (log2_byte b Hb). lia.
Qed.

Lemma lxor_cancel (k p : Z) : Z.lxor k (Z.lxor k p) = p.
Proof.
  rewrite <- Z.lxor_assoc, Z.lxor_nilpotent, Z.lxor_0_l. reflexivity.
Qed.

(** The four bytes that [PutUint32] writes denote the value written. *)
Lemma Uint32_PutUint32 (v : Z) : 0 <= v < 2 ^ 32 -> Uint32 (PutUint32 v) = v.
Proof.
  intros Hv. unfold Uint32, PutUint32.
  rewrite !int_of_byte_of_int_mod.
  change 256 with (2 ^ 8).
  apply Z.bits_inj'. intros n Hn.
  rewrite !Z.lor_spec, !Z.shiftl_spec by lia.
  assert (Hhigh : 32 <= n -> Z.testbit v n = false).
  { intros H32. destruct (Z.eq_dec v 0) as [->|Hne]; [apply Z.bits_0|].
    apply Z.bits_above_log2; [lia|].
    assert (Z.log2 v < 32) by (apply Z.log2_lt_pow2; lia). lia. }
  destruct (Z_lt_dec n 8) as [H8|H8].
  { rewrite (Z.testbit_neg_r _ (n - 24)), (Z.testbit_neg_r _ (n - 16)),
      (Z.testbit_neg_r _ (n - 8)) by lia.
    rewrite Z.mod_pow2_bits_low by lia. reflexivity. }
  rewrite (Z.mod_pow2_bits_high v 8 n) by lia. rewrite orb_false_r.
  destruct (Z_lt_dec n 16) as [H16|H16].
  { rewrite (Z.testbit_neg_r _ (n - 24)), (Z.testbit_neg_r _ (n - 16)) by lia.
    rewrite Z.mod_pow2_bits_low, Z.shiftr_spec by lia.
    cbn [orb]. f_equal. lia. }
  rewrite (Z.mod_pow2_bits_high _ 8 (n - 8)) by lia. rewrite orb_false_r.
  destruct (Z_lt_dec n 24) as [H24|H24].
  { rewrite (Z.testbit_neg_r _ (n - 24)) by lia.
    rewrite Z.mod_pow2_bits_low, Z.shiftr_spec by lia.
    cbn [orb]. f_equal. lia. }
  rewrite (Z.mod_pow2_bits_high _ 8 (n - 16)) by lia. rewrite orb_false_r.
  destruct (Z_lt_dec n 32) as [H32|H32].
  { rewrite Z.mod_pow2_bits_low, Z.shiftr_spec by lia. f_equal. lia. }
  rewrite Z.mod_pow2_bits_high by lia. symmetry. apply Hhigh. lia.
Qed.

(** ** The codec *)

Lemma encrypt_loop_length (bx : list byte) :
  forall key, List.length (encrypt_loop key bx) = List.length bx.
Proof.
  induction bx as [|p rest IH]; intros key; cbn; [reflexivity|].
  rewrite IH. reflexivity.
Qed.

Lemma decrypt_loop_length (bx : list byte) :
  forall key, List.length (decrypt_loop key bx) = List.length bx.
Proof.
  induction bx as [|c rest IH]; intros key; cbn; [reflexivity|].
  rewrite IH. reflexivity.
Qed.

(** The decoding loop undoes the encoding loop when both start from the
    same key and that key is a byte value. *)
Lemma decrypt_loop_encrypt_loop (bx : list byte) :
  forall key, 0 <= key < 256 ->
    decrypt_loop key (encrypt_loop key bx) = bx.
Proof.
  induction bx as [|p rest IH]; intros key Hkey; cbn; [reflexivity|].
  pose proof (lxor_byte_range key (int_of_byte p) Hkey (int_of_byte_range p))
    as Hb.
  rewrite (int_of_byte_of_int _ Hb), lxor_cancel, byte_of_int_of_byte.
  rewrite (IH _ Hb). reflexivity.
Qed.

Lemma decrypt_skips_prefix (a b c d : byte) (rest : list byte) :
  decrypt (a :: b :: c :: d :: rest) = decrypt_loop 171 rest.
Proof. reflexivity. Qed.

(** C1.  Decoding an encoded byte sequence gives the sequence back:
    [decrypt (encrypt P) = P] for every [P], the empty one included. *)
Theorem decrypt_encrypt (P : list byte) : decrypt (encrypt P) = P.
Proof.
  unfold encrypt, PutUint32. cbn [app].
  rewrite decrypt_skips_prefix.
  apply decrypt_loop_encrypt_loop. lia.
Qed.

(** C10.  [decrypt] is a total function: on every input it returns the
    bytes from index 4 on, deciphered, and nothing can fail; on an input of
    at most four bytes (empty, or a bare or truncated prefix) the result is
    empty. *)
Theorem decrypt_short (bx : list byte) :
  List.length (decrypt bx) = (List.length bx - 4)%nat /\
  ((List.length bx <= 4)%nat -> decrypt bx = []).
Proof.
  unfold decrypt. split.
  - rewrite decrypt_loop_length. apply length_skipn.
  - intros Hlen. rewrite skipn_all2 by exact Hlen. reflexivity.
Qed.

Lemma decrypt_short_witness :
  (List.length [x00; x00; x00] <= 4)%nat /\ decrypt [x00; x00; x00] = [].
Proof.
  split; [cbn; lia | apply (decrypt_short [x00; x00; x00]); cbn; lia].
Defined.

Lemma encrypt_loop_nth (bx : list byte) :
  forall key i p, 0 <= key < 256 ->
    nth_error bx i = Some p ->
    nth_error (encrypt_loop key bx) i =
      Some (byte_of_int
              (Z.lxor (match i with
                       | O => key
                       | S j => int_of_byte (nth j (encrypt_loop key bx) x00)
                       end) (int_of_byte p))).
Proof.
  induction bx as [|p0 rest IH]; intros key i p Hkey Hi.
  - destruct i; discriminate.
  - pose proof (lxor_byte_range key (int_of_byte p0) Hkey
                  (int_of_byte_range p0)) as Hb.
    destruct i as [|j]; cbn in Hi |- *.
    + injection Hi as ->. reflexivity.
    + rewrite (IH _ j p Hb Hi). destruct j as [|j']; [|reflexivity].
      rewrite (int_of_byte_of_int _ Hb). reflexivity.
Qed.

Lemma encrypt_prefix (P : list byte) :
  Uint32 (firstn 4 (encrypt P)) = uint32 (Z.of_nat (List.length P)).
Proof.
  unfold encrypt.
  rewrite firstn_app. change (List.length (PutUint32 _)) with 4%nat.
  rewrite Nat.sub_diag. cbn [firstn]. rewrite app_nil_r.
  change (firstn 4 (PutUint32 ?v)) with (PutUint32 v).
  apply Uint32_PutUint32. unfold uint32. apply Z.mod_pos_bound. lia.
Qed.

(** C6, as the code has it.  The output of [encrypt] is four bytes followed
    by one byte per plaintext byte.  The four bytes are the big-endian form
    of the plaintext length reduced modulo 2^32 (the length itself whenever
    it is below 2^32).  The payload byte at index [i] is [key XOR p], where
    [p] is the plaintext byte at [i] and the key is 171 for [i = 0] and the
    previous payload byte otherwise.  The empty plaintext gives exactly four
    zero bytes. *)
Theorem encrypt_layout (P : list byte) :
  List.length (encrypt P) = (4 + List.length P)%nat /\
  Uint32 (firstn 4 (encrypt P)) = Z.of_nat (List.length P) mod 2 ^ 32 /\
  (Z.of_nat (List.length P) < 2 ^ 32 ->
   Uint32 (firstn 4 (encrypt P)) = Z.of_nat (List.length P)) /\
  (forall i p, nth_error P i = Some p ->
     nth_error (encrypt P) (4 + i) =
       Some (byte_of_int (Z.lxor (key_before (encrypt P) i) (int_of_byte p)))) /\
  encrypt [] = [x00; x00; x00; x00].
Proof.
  split; [|split; [|split; [|split]]].
  - unfold encrypt. rewrite length_app, encrypt_loop_length. reflexivity.
  - apply encrypt_prefix.
  - intros Hlen. rewrite encrypt_prefix. unfold uint32.
    apply Z.mod_small. lia.
  - intros i p Hi. unfold encrypt, PutUint32. cbn [app Nat.add nth_error].
    rewrite (encrypt_loop_nth P 171 i p ltac:(lia) Hi).
    destruct i; reflexivity.
  - reflexivity.
Qed.

(** The length prefix of a plaintext of 2^32 bytes is zero, not its
    length: [uint32(len(bx))] keeps the low 32 bits. *)
Lemma encrypt_prefix_wraps :
  Uint32 (firstn 4 (encrypt (repeat x00 (Z.to_nat (2 ^ 32))))) <>
  Z.of_nat (List.length (repeat x00 (Z.to_nat (2 ^ 32)))).
Proof.
  rewrite encrypt_prefix, repeat_length. unfold uint32.
  rewrite Z2Nat.id by lia.
  rewrite Z.mod_same by lia. lia.
Qed.

(** ** The mapping parser *)

Lemma Split_nonempty (s : string) (sep : ascii) : Split s sep <> [].
Proof.
  destruct s as [|c rest]; cbn; [discriminate|].
  destruct (Ascii.eqb c sep); [discriminate|].
  destruct (Split rest sep); discriminate.
Qed.

Lemma nth_error_nth_default {A} (l : list A) (n : nat) (d : A) :
  (n < List.length l)%nat -> nth_error l n = Some (nth n l d).
Proof.
  intros Hn. apply nth_error_nth'. exact Hn.
Qed.

(** One turn of the loop on a pair that is not rejected appends its plug. *)
Lemma processMapping_loop_accepts (entry : string) (plugs : list plug)
      (more : list string) :
  rejected entry = false ->
  processMapping_loop (entry :: more) plugs =
  processMapping_loop more (plugs ++ [plug_of_entry entry]).
Proof.
  unfold rejected, plug_of_entry, parses, parts_of. intros Hr.
  apply orb_false_elim in Hr as [Hlen Hparse].
  apply Nat.ltb_ge in Hlen. apply negb_false_iff in Hparse.
  cbn [processMapping_loop].
  rewrite (nth_error_nth_default _ 1 EmptyString) by lia.
  destruct (Atoi (nth 1 (Split entry ":") EmptyString)) as [k|e];
    [|discriminate].
  rewrite (nth_error_nth_default _ 0 EmptyString) by lia.
  reflexivity.
Qed.

(** One turn of the loop on a rejected pair panics. *)
Lemma processMapping_loop_rejects (entry : string) (plugs : list plug)
      (more : list string) :
  rejected entry = true ->
  exists e, processMapping_loop (entry :: more) plugs = Panics e.
Proof.
  unfold rejected, parses, parts_of. intros Hr.
  cbn [processMapping_loop].
  destruct (nth_error (Split entry ":") 1) as [key|] eqn:E1.
  - assert (Hlen : (1 < List.length (Split entry ":"))%nat).
    { apply nth_error_Some. rewrite E1. discriminate. }
    rewrite (nth_error_nth_default _ 1 EmptyString Hlen) in E1.
    injection E1 as <-.
    apply orb_true_elim in Hr as [Hr|Hr].
    + apply Nat.ltb_lt in Hr. lia.
    + destruct (Atoi (nth 1 (Split entry ":") EmptyString)) as [k|e].
      * discriminate.
      * eexists. reflexivity.
  - eexists. reflexivity.
Qed.

Lemma processMapping_loop_spec (entries : list string) :
  forall plugs,
    (existsb rejected entries = false ->
     processMapping_loop entries plugs =
     Returns (plugs ++ map plug_of_entry entries)) /\
    (existsb rejected entries = true ->
     exists e, processMapping_loop entries plugs = Panics e).
Proof.
  induction entries as [|entry more IH]; intros plugs.
  - split; [intros _; cbn; rewrite app_nil_r; reflexivity | discriminate].
  - cbn [existsb map]. destruct (rejected entry) eqn:Hr; cbn [orb].
    + split; [discriminate|]. intros _.
      apply processMapping_loop_rejects. exact Hr.
    + rewrite (processMapping_loop_accepts entry plugs more Hr).
      destruct (IH (plugs ++ [plug_of_entry entry])) as [Hok Hbad].
      split; [|exact Hbad].
      intros Hnone. rewrite (Hok Hnone), <- app_assoc. reflexivity.
Qed.

(** C4, as the code has it.  If some pair of the mapping has no second
    part, or a second part that does not parse as an integer, then
    [processMapping] panics and returns no list at all; otherwise it returns
    the plugs of all the pairs, in order.  Parts after the second are
    ignored, so a pair of three parts is accepted. *)
Theorem processMapping_all_or_nothing (m : string) :
  (existsb rejected (Split m ",") = true ->
   exists e, processMapping m = Panics e) /\
  (existsb rejected (Split m ",") = false ->
   processMapping m = Returns (map plug_of_entry (Split m ","))).
Proof.
  unfold processMapping.
  destruct (processMapping_loop_spec (Split m ",") []) as [Hok Hbad].
  split; [exact Hbad | exact Hok].
Qed.

Lemma processMapping_all_or_nothing_witness :
  existsb rejected (Split "10.0.0.5:abc" ",") = true /\
  (exists e, processMapping "10.0.0.5:abc" = Panics e) /\
  existsb rejected (Split "10.0.0.5:49:7" ",") = false /\
  processMapping "10.0.0.5:49:7" =
    Returns (map plug_of_entry (Split "10.0.0.5:49:7" ",")).
Proof.
  split; [reflexivity|]. split.
  - apply (proj1 (processMapping_all_or_nothing "10.0.0.5:abc")). reflexivity.
  - split; [reflexivity|].
    apply (proj2 (processMapping_all_or_nothing "10.0.0.5:49:7")). reflexivity.
Defined.

(** A pair of three parts is malformed in the words of the specification,
    and [processMapping] returns a plug for it. *)
Lemma processMapping_accepts_three_parts :
  existsb malformed_spec (Split "10.0.0.5:49:7" ",") = true /\
  processMapping "10.0.0.5:49:7" =
    Returns [mkPlug "10.0.0.5" 49 EmptyString EmptyString false 0].
Proof.
  split; reflexivity.
Qed.

(** C8.  The mapping of two well-formed pairs gives two plugs, in the order
    of the input, with the addresses and trigger keys written there. *)
Theorem processMapping_two_plugs :
  processMapping "10.0.0.5:49,10.0.0.6:50" =
    Returns [mkPlug "10.0.0.5" 49 EmptyString EmptyString false 0;
             mkPlug "10.0.0.6" 50 EmptyString EmptyString false 0].
Proof.
  reflexivity.
Qed.

(** ** The command path *)

(** Unfold the monad down to the world and the trace, without touching the
    codec, the buffers or the durations. *)
Ltac run :=
  unfold toggle, turnOn, turnOff, sendCmd, sendCmd_exchange, Sleep, Println,
    emit, elapse, nextExchange, Now, bind, ret;
  cbn [now conns net].

(** Split on the outcome of the exchange and on the rate guard. *)
Ltac split_cases :=
  repeat match goal with
    | |- context [match outcome ?x with _ => _ end] =>
        destruct (outcome x) eqn:?
    | |- context [if Sub ?t ?u <? ?c then _ else _] =>
        destruct (Sub t u <? c) eqn:?
    end;
  cbv beta iota zeta;
  cbn [now conns net app fst snd lastCmd set_lastCmd set_On IPAddress
       TriggerKey Model Name On error_of reaches_write sleeps writes dials
       locks toggled errors founds map hd_error last addr_of negb].

Ltac solve_fact :=
  match goal with
  | |- _ <= _ => unfold Millisecond; lia
  | |- _ = _ => reflexivity
  end.

Lemma saturated_guard_false (t u : Z) :
  (Sub t u <? Millisecond * 500) = false -> u + Millisecond * 500 <= t.
Proof.
  unfold Sub, maxDuration, minDuration, Millisecond. intros H.
  apply Z.ltb_ge in H. lia.
Qed.

(** Everything the later theorems need to know about one call of
    [sendCmd]. *)
Lemma sendCmd_facts (p : plug) (data : string) (w : world) :
  let '(p1, r, w1, evs) := sendCmd p data w in
  let x := net w (conns w) in
  let slept := Sub (now w) (lastCmd p) <? Millisecond * 500 in
  p1 = set_lastCmd (now w1) p /\
  snd r = error_of (outcome x) /\
  conns w1 = S (conns w) /\
  net w1 = net w /\
  now w + (if slept then Millisecond * 500 else 0) <= now w1 /\
  sleeps evs = (if slept then [Millisecond * 500] else []) /\
  locks evs = [EvLock; EvUnlock] /\
  hd_error evs = Some (now w, EvLock) /\
  last evs (0, EvClose) = (now w1, EvUnlock) /\
  dials evs = [addr_of p] /\
  map snd (writes evs) =
    (if reaches_write (outcome x) then [encrypt (bytes_of data)] else []) /\
  (forall t pay, In (t, pay) (writes evs) ->
     now w + (if slept then Millisecond * 500 else 0) <= t <= now w1).
Proof.
  run. split_cases;
    repeat (split; [solve_fact|]);
    intros t pay Hin; cbn [In] in Hin;
    repeat match goal with
      | H : _ \/ _ |- _ => destruct H as [H|H]
      | H : (_, _) = (_, _) |- _ =>
          apply (f_equal fst) in H; cbn [fst] in H; subst
      | H : False |- _ => destruct H
      end;
    unfold Millisecond; lia.
Qed.

(** The commands that the program builds are the texts of the source. *)
Lemma payload_literals :
  bytes_of payload_sysinfo = json_get_sysinfo /\
  bytes_of (payload_relay "1") = json_relay_on /\
  bytes_of (payload_relay "0") = json_relay_off.
Proof. repeat split; reflexivity. Qed.

(** The two relay commands differ, and so do their frames. *)
Lemma relay_frames_differ : encrypt json_relay_off <> encrypt json_relay_on.
Proof.
  intros H. apply (f_equal (fun l => nth 42 l x00)) in H.
  vm_compute in H. discriminate.
Qed.

(** C2.  [toggle] is the command chosen by the cached flag followed by the
    write of the opposite flag: with [On] it runs [turnOff] and leaves
    [On = false], otherwise it runs [turnOn] and leaves [On = true].  The
    error is the one the exchange produced, whatever it is, and the flag is
    flipped all the same.  The bytes written, when the exchange gets as far
    as writing, are the frame of the JSON text of the source: the command
    for state 0 when the flag was on, the command for state 1 when it was
    off, and the two frames differ. *)
Theorem toggle_flips (p : plug) (w : world) :
  let '(p', err, w', evs) := toggle p w in
  toggle p w =
    (let '(p1, err1, w1, evs1) := (if On p then turnOff p else turnOn p) w in
     (set_On (negb (On p)) p1, err1, w1,
      evs1 ++ [(now w1, EvPrint (OutToggled (Name p1) (now w1)))])) /\
  On p' = negb (On p) /\
  err = error_of (outcome (net w (conns w))) /\
  dials evs = [addr_of p] /\
  map snd (writes evs) =
    (if reaches_write (outcome (net w (conns w)))
     then [encrypt (if On p then json_relay_off else json_relay_on)]
     else []) /\
  encrypt json_relay_off <> encrypt json_relay_on /\
  toggled evs = [Name p].
Proof.
  pose proof relay_frames_differ as Hdiff.
  destruct p as [ip key mo na [|] lc]; run; cbn [On]; split_cases;
    repeat split; solve [reflexivity | exact Hdiff].
Qed.

(** C9.  [toggle], the command it sends included, leaves [IPAddress],
    [TriggerKey], [Name] and [Model] as they were: the plug afterwards is
    the plug before with new values of [On] and [lastCmd] at most.  A bare
    [sendCmd] changes [lastCmd] only. *)
Theorem toggle_frame (p : plug) (w : world) :
  (let '(p', _, _, _) := toggle p w in
   IPAddress p' = IPAddress p /\
   TriggerKey p' = TriggerKey p /\
   Name p' = Name p /\
   Model p' = Model p /\
   p' = set_lastCmd (lastCmd p') (set_On (On p') p)) /\
  (forall data,
     let '(p1, _, _, _) := sendCmd p data w in
     p1 = set_lastCmd (lastCmd p1) p).
Proof.
  split.
  - destruct p as [ip key mo na [|] lc]; run; cbn [On]; split_cases;
      repeat split; reflexivity.
  - intros data. destruct p as [ip key mo na on lc]. run. split_cases;
      reflexivity.
Qed.

(** C3, as the code has it.  In one call of [sendCmd], the mutex is locked
    first and unlocked last; if less than 500 ms have passed since
    [lastCmd], the call sleeps for a fixed 500 ms (not for the remainder of
    the interval), and otherwise it does not sleep; [lastCmd] is set to the
    clock at the moment of unlocking.  Hence, for two consecutive commands
    to one plug, every network write of the second starts at least 500 ms
    after every write of the first. *)
Theorem sendCmd_rate_guard (p : plug) (data : string) (w : world) :
  let '(p1, _, w1, evs1) := sendCmd p data w in
  sleeps evs1 =
    (if Sub (now w) (lastCmd p) <? Millisecond * 500
     then [Millisecond * 500] else []) /\
  locks evs1 = [EvLock; EvUnlock] /\
  hd_error evs1 = Some (now w, EvLock) /\
  last evs1 (0, EvClose) = (now w1, EvUnlock) /\
  lastCmd p1 = now w1 /\
  forall (p2 : plug) (data2 : string) (w2 : world),
    lastCmd p2 = lastCmd p1 ->
    now w1 <= now w2 ->
    let '(_, _, _, evs2) := sendCmd p2 data2 w2 in
    forall t1 pay1 t2 pay2,
      In (t1, pay1) (writes evs1) ->
      In (t2, pay2) (writes evs2) ->
      t1 + Millisecond * 500 <= t2.
Proof.
  pose proof (sendCmd_facts p data w) as F.
  destruct (sendCmd p data w) as [[[p1 r1] w1] evs1].
  cbv zeta in F.
  destruct F as (Hp1 & _ & _ & _ & _ & Hsl & Hlk & Hhd & Hlast & _ & _ & Hw1).
  repeat (split; [assumption|]).
  assert (Hlc : lastCmd p1 = now w1) by (rewrite Hp1; reflexivity).
  split; [exact Hlc|].
  intros p2 data2 w2 Hsame Hmono.
  pose proof (sendCmd_facts p2 data2 w2) as F2.
  destruct (sendCmd p2 data2 w2) as [[[p3 r3] w3] evs2].
  cbv zeta in F2.
  destruct F2 as (_ & _ & _ & _ & _ & _ & _ & _ & _ & _ & _ & Hw2).
  intros t1 pay1 t2 pay2 Hin1 Hin2.
  apply Hw1 in Hin1. apply Hw2 in Hin2.
  rewrite Hsame, Hlc in Hin2.
  destruct (Sub (now w2) (now w1) <? Millisecond * 500) eqn:G.
  - lia.
  - apply saturated_guard_false in G.
    destruct (Sub (now w) (lastCmd p) <? Millisecond * 500); lia.
Qed.

(** ** Projections of a trace *)

Lemma dials_app (a b : trace) : dials (a ++ b) = dials a ++ dials b.
Proof.
  induction a as [|[t e] a IH]; [reflexivity|].
  destruct e; cbn [app dials]; rewrite IH; reflexivity.
Qed.

Lemma toggled_app (a b : trace) : toggled (a ++ b) = toggled a ++ toggled b.
Proof.
  induction a as [|[t e] a IH]; [reflexivity|].
  destruct e as [| | | | | | | | |o]; cbn [app toggled];
    try (rewrite IH; reflexivity).
  destruct o; cbn [app]; rewrite IH; reflexivity.
Qed.

Lemma errors_app (a b : trace) : errors (a ++ b) = errors a ++ errors b.
Proof.
  induction a as [|[t e] a IH]; [reflexivity|].
  destruct e as [| | | | | | | | |o]; cbn [app errors];
    try (rewrite IH; reflexivity).
  destruct o; cbn [app]; rewrite IH; reflexivity.
Qed.

Lemma founds_app (a b : trace) : founds (a ++ b) = founds a ++ founds b.
Proof.
  induction a as [|[t e] a IH]; [reflexivity|].
  destruct e as [| | | | | | | | |o]; cbn [app founds];
    try (rewrite IH; reflexivity).
  destruct o; cbn [app]; rewrite IH; reflexivity.
Qed.

Lemma last_app_nonempty {A} (a b : list A) (d : A) :
  b <> [] -> last (a ++ b) d = last b d.
Proof.
  intros Hb. induction a as [|x a IH]; [reflexivity|].
  cbn [app last]. destruct (a ++ b) eqn:E; [|exact IH].
  apply app_eq_nil in E. destruct E as [_ E]. contradiction.
Qed.

(** ** The start-up query pass *)

Section Queries.

Variable Unmarshal : list byte -> option info.

(** One query dials its plug once, prints nothing, and changes [lastCmd]
    only. *)
Lemma systemInfo_facts (p : plug) (w : world) :
  let '(p1, _, w1, evs) := systemInfo Unmarshal p w in
  p1 = set_lastCmd (lastCmd p1) p /\
  dials evs = [addr_of p] /\
  errors evs = [] /\
  founds evs = [].
Proof.
  destruct p as [ip key mo na on lc]. unfold systemInfo. run. split_cases;
    try (repeat split; reflexivity);
    match goal with
    | |- context [Unmarshal ?bs] => destruct (Unmarshal bs)
    end; cbv beta iota; repeat split; reflexivity.
Qed.

(** The first step of [getSystemInfo], written out. *)
Lemma getSystemInfo_cons (p : plug) (rest : list plug) (w : world) :
  getSystemInfo Unmarshal (p :: rest) w =
    let '(p1, (i, err), w1, evs1) := systemInfo Unmarshal p w in
    match err with
    | Some e => (p1 :: rest, w1, evs1 ++ [(now w1, EvPrint (OutError e))])
    | None =>
        let p2 := set_On (int2bool (RelayState i))
                    (set_Model (info_Model i) (set_Name (Alias i) p1)) in
        let '(rest', w2, evs2) := getSystemInfo Unmarshal rest w1 in
        (p2 :: rest', w2,
         evs1 ++ (now w1, EvPrint (OutFound (Name p2))) :: evs2)
    end.
Proof.
  cbn [getSystemInfo]. unfold bind at 1.
  destruct (systemInfo Unmarshal p w) as [[[p1 [i [e|]]] w1] evs1].
  - reflexivity.
  - unfold bind, Println, emit, ret.
    destruct (getSystemInfo Unmarshal rest w1) as [[rest' w2] evs2].
    cbn [app]. rewrite app_nil_r. reflexivity.
Qed.

(** What one query returns is the result of the exchange it gets, and it
    uses up that one exchange. *)
Lemma systemInfo_result (p : plug) (w : world) :
  let '(p1, (i, err), w1, evs) := systemInfo Unmarshal p w in
  conns w1 = S (conns w) /\
  net w1 = net w /\
  match query_result Unmarshal (net w (conns w)) with
  | inl i' => i = i' /\ err = None
  | inr e => err = Some e
  end.
Proof.
  destruct p as [ip key mo na on lc]. unfold systemInfo, query_result. run.
  split_cases;
    try match goal with
      | |- context [Unmarshal ?bs] => destruct (Unmarshal bs)
      end;
    cbv beta iota; cbn [conns net]; repeat split; reflexivity.
Qed.

Lemma populated_plug (p p1 : plug) (i : info) :
  p1 = set_lastCmd (lastCmd p1) p ->
  let p2 := set_On (int2bool (RelayState i))
              (set_Model (info_Model i) (set_Name (Alias i) p1)) in
  p2 = set_lastCmd (lastCmd p2)
         (set_On (int2bool (RelayState i))
            (set_Model (info_Model i) (set_Name (Alias i) p))).
Proof.
  intros H. cbv zeta. rewrite H. destruct p. reflexivity.
Qed.

(** C5, as the code has it.  Let the number of successes be the number of
    plugs, from the front of the list, whose query succeeds: the exchange
    goes through and [json.Unmarshal] accepts the reply.  [getSystemInfo]
    queries, in list order, those plugs and the one after them, whose query
    is the first that fails, and no other: the addresses dialled and the
    exchanges used up are exactly these.  Each plug before the failing one
    gets the name, the model and the flag that its reply reports, and is
    printed as found.  When a query fails, its error is printed, once and
    as the last thing the function does; the failing plug keeps its name,
    model and flag, and the plugs after it come back untouched.  When none
    fails, no error is printed.  The error is printed only: the function
    gives nothing back to its caller. *)
Theorem getSystemInfo_fail_fast (plugs : list plug) :
  forall w,
    let '(plugs', w', evs) := getSystemInfo Unmarshal plugs w in
    let result :=
      fun i => query_result Unmarshal (net w (conns w + i)%nat) in
    let oks := successes Unmarshal (net w) (conns w) (List.length plugs) in
    let n := Nat.min (S oks) (List.length plugs) in
    dials evs = map addr_of (firstn n plugs) /\
    conns w' = (conns w + n)%nat /\
    net w' = net w /\
    List.length plugs' = List.length plugs /\
    skipn n plugs' = skipn n plugs /\
    List.length (founds evs) = oks /\
    (forall k, (k < oks)%nat ->
       exists i p p',
         result k = inl i /\
         nth_error plugs k = Some p /\
         nth_error plugs' k = Some p' /\
         p' = set_lastCmd (lastCmd p')
                (set_On (int2bool (RelayState i))
                   (set_Model (info_Model i) (set_Name (Alias i) p)))) /\
    (oks = List.length plugs -> errors evs = []) /\
    ((oks < List.length plugs)%nat ->
       exists e p p',
         result oks = inr e /\
         errors evs = [e] /\
         last evs (0, EvClose) = (now w', EvPrint (OutError e)) /\
         nth_error plugs oks = Some p /\
         nth_error plugs' oks = Some p' /\
         p' = set_lastCmd (lastCmd p') p).
Proof.
  induction plugs as [|p rest IH]; intros w.
  - cbn. repeat split; try reflexivity; try (intros; lia).
  - rewrite getSystemInfo_cons.
    pose proof (systemInfo_facts p w) as F.
    pose proof (systemInfo_result p w) as R.
    destruct (systemInfo Unmarshal p w) as [[[p1 [i err]] w1] evs1].
    destruct F as (Hp1 & Hd & He & Hf).
    destruct R as (Hc & Hn & R).
    cbn [List.length successes].
    destruct (query_result Unmarshal (net w (conns w))) as [i'|e] eqn:Q.
    + destruct R as [-> ->].
      specialize (IH w1). rewrite Hc, Hn in IH.
      destruct (getSystemInfo Unmarshal rest w1) as [[rest' w2] evs2].
      cbv zeta in IH |- *.
      set (oks := successes Unmarshal (net w) (S (conns w))
                    (List.length rest)) in *.
      destruct IH as (Id & Ic & In' & Il & Is & If & Iok & Inone & Ifail).
      replace (Nat.min (S (S oks)) (S (List.length rest)))
        with (S (Nat.min (S oks) (List.length rest))) by reflexivity.
      cbn [firstn skipn map List.length].
      rewrite dials_app, errors_app, founds_app, Hd, He, Hf.
      cbn [dials errors founds app List.length].
      split; [f_equal; exact Id|].
      split; [rewrite Ic; lia|].
      split; [exact In'|].
      split; [f_equal; exact Il|].
      split; [exact Is|].
      split; [f_equal; exact If|].
      split; [|split].
      * intros k Hk. destruct k as [|k].
        -- exists i', p. eexists. rewrite Nat.add_0_r, Q. cbn [nth_error].
           split; [reflexivity|]. split; [reflexivity|].
           split; [reflexivity|]. apply (populated_plug p p1 i' Hp1).
        -- destruct (Iok k ltac:(lia)) as (j & q & q' & Hr & Hq & Hq' & Hpop).
           exists j, q, q'. cbn [nth_error].
           rewrite <- Nat.add_succ_comm. repeat split; assumption.
      * intros Hall. apply Inone. lia.
      * intros Hlt.
        destruct (Ifail ltac:(lia)) as (e & q & q' & Hr & Herr & Hlast & Hq & Hq' & Hsame).
        exists e, q, q'. cbn [nth_error].
        rewrite <- Nat.add_succ_comm.
        assert (Hne : evs2 <> []) by (intros ->; discriminate).
        repeat split; try assumption.
        rewrite <- Hlast, last_app_nonempty by discriminate.
        cbn [last]. destruct evs2; [contradiction|reflexivity].
    + subst err. cbv zeta.
      cbn [Nat.min firstn skipn map List.length nth_error].
      rewrite dials_app, errors_app, founds_app, Hd, He, Hf, last_last.
      cbn [dials errors founds app List.length].
      split; [reflexivity|]. split; [rewrite Hc; lia|].
      split; [exact Hn|]. split; [reflexivity|]. split; [reflexivity|].
      split; [reflexivity|]. split; [intros k Hk; lia|].
      split; [intros H; discriminate|].
      intros _. exists e, p, p1. rewrite Nat.add_0_r, Q.
      repeat split. exact Hp1.
Qed.

End Queries.

(** ** The event loop *)

(** What [toggle] does, in the form the loop needs. *)
Lemma toggle_facts (p : plug) (w : world) :
  let '(p', _, _, evs) := toggle p w in
  On p' = negb (On p) /\
  p' = set_lastCmd (lastCmd p') (set_On (On p') p) /\
  dials evs = [addr_of p] /\
  toggled evs = [Name p].
Proof.
  destruct p as [ip key mo na [|] lc]; run; cbn [On]; split_cases;
    repeat split; reflexivity.
Qed.

(** The first step of the inner loop on a plug whose key matches. *)
Lemma range_plugs_match (key : Z) (p : plug) (rest : list plug) (w : world) :
  matches key p = true ->
  range_plugs key (p :: rest) w =
    let '(p', err, w1, evs1) := toggle p w in
    let line := match err with
                | Some e => [(now w1, EvPrint (OutCouldNotToggle (Name p') e))]
                | None => []
                end in
    let '(rest', w2, evs2) := range_plugs key rest w1 in
    (p' :: rest', w2, (now w, EvSync) :: evs1 ++ line ++ evs2).
Proof.
  unfold matches. intros Hm. cbn [range_plugs]. rewrite Hm.
  unfold bind at 1. unfold emit at 1. unfold bind at 1.
  destruct (toggle p w) as [[[p' err] w1] evs1].
  unfold bind, Println, emit, ret.
  destruct err; cbv beta iota;
    destruct (range_plugs key rest w1) as [[rest' w2] evs2];
    cbn [app]; rewrite app_nil_r; reflexivity.
Qed.

(** The first step of the inner loop on a plug whose key does not match. *)
Lemma range_plugs_skip (key : Z) (p : plug) (rest : list plug) (w : world) :
  matches key p = false ->
  range_plugs key (p :: rest) w =
    let '(rest', w2, evs2) := range_plugs key rest w in
    (p :: rest', w2, evs2).
Proof.
  unfold matches. intros Hm. cbn [range_plugs]. rewrite Hm.
  unfold bind, ret.
  destruct (range_plugs key rest w) as [[rest' w2] evs2].
  rewrite app_nil_r. reflexivity.
Qed.

(** The inner loop toggles the plugs whose key matches, in list order, and
    returns the others as they are. *)
Lemma range_plugs_spec (key : Z) (plugs : list plug) :
  forall w,
    let '(plugs', _, evs) := range_plugs key plugs w in
    toggled evs = map Name (filter (matches key) plugs) /\
    dials evs = map addr_of (filter (matches key) plugs) /\
    Forall2 (toggled_or_kept key) plugs plugs'.
Proof.
  induction plugs as [|p rest IH]; intros w.
  - cbn. repeat split; constructor.
  - destruct (matches key p) eqn:Hm.
    + rewrite (range_plugs_match key p rest w Hm).
      pose proof (toggle_facts p w) as F.
      destruct (toggle p w) as [[[p' err] w1] evs1].
      destruct F as (Hon & Hp' & Hd & Ht).
      specialize (IH w1).
      destruct (range_plugs key rest w1) as [[rest' w2] evs2].
      cbv zeta. destruct IH as (IHt & IHd & IHf).
      cbn [filter]. rewrite Hm. cbn [map toggled dials].
      rewrite toggled_app, dials_app, toggled_app, dials_app, Ht, Hd, IHt, IHd.
      split; [|split].
      * destruct err; reflexivity.
      * destruct err; reflexivity.
      * constructor; [|exact IHf].
        unfold toggled_or_kept. rewrite Hm. split; assumption.
    + rewrite (range_plugs_skip key p rest w Hm).
      specialize (IH w).
      destruct (range_plugs key rest w) as [[rest' w2] evs2].
      destruct IH as (IHt & IHd & IHf).
      cbn [filter]. rewrite Hm.
      split; [exact IHt|split; [exact IHd|]].
      constructor; [|exact IHf].
      unfold toggled_or_kept. rewrite Hm. reflexivity.
Qed.

(** C7, as the code has it.  One turn of the loop of [main]: an event that
    is not a key event toggles nothing and the loop goes on; the key event
    Ctrl-C toggles nothing and the loop returns; any other key event goes
    through the plugs in list order and toggles exactly those whose trigger
    key, converted to the 16-bit key type as [term.Key(plug.TriggerKey)],
    equals the key of the event; the plugs that do not match are left as
    they are.  After a turn that does not return, the loop takes the next
    event. *)
Theorem loop_body_dispatch (event : Event) (plugs : list plug) (w : world) :
  let '(r, w', evs) := loop_body event plugs w in
  match Type_ event with
  | EventKey =>
      if Key event =? KeyCtrlC then
        r = Return /\ toggled evs = [] /\ dials evs = []
      else
        exists plugs',
          r = Continue plugs' /\
          toggled evs = map Name (filter (matches (Key event)) plugs) /\
          dials evs = map addr_of (filter (matches (Key event)) plugs) /\
          Forall2 (toggled_or_kept (Key event)) plugs plugs'
  | _ => r = Continue plugs /\ toggled evs = [] /\ dials evs = []
  end /\
  forall more,
    listen (event :: more) plugs w =
      match r with
      | Return => (plugs, Returned, w', evs)
      | Continue plugs' =>
          let '(x, w'', evs') := listen more plugs' w' in
          (x, w'', evs ++ evs')
      end.
Proof.
  assert (Hlisten : forall more,
    listen (event :: more) plugs w =
      let '(r, w', evs) := loop_body event plugs w in
      match r with
      | Return => (plugs, Returned, w', evs)
      | Continue plugs' =>
          let '(x, w'', evs') := listen more plugs' w' in
          (x, w'', evs ++ evs')
      end).
  { intros more. cbn [listen]. unfold bind at 1.
    destruct (loop_body event plugs w) as [[[plugs'|] w'] evs].
    - destruct (listen more plugs' w') as [[x w''] evs']. reflexivity.
    - unfold ret. rewrite app_nil_r. reflexivity. }
  destruct (loop_body event plugs w) as [[r w'] evs] eqn:E.
  split; [|exact Hlisten].
  clear Hlisten. unfold loop_body in E.
  unfold bind at 1 in E. unfold Println at 1 in E. unfold emit at 1 in E.
  unfold bind at 1 in E. unfold elapse at 1 in E.
  set (w0 := mkWorld (now w + Z.of_N (wait event)) (conns w) (net w)) in E.
  destruct (Type_ event); cbn [negb EventType_eqb] in E;
    try (unfold ret in E; cbn [app] in E; injection E as <- <- <-;
         repeat split; reflexivity).
  destruct (Key event =? KeyCtrlC).
  - unfold ret in E; cbn [app] in E. injection E as <- <- <-.
    repeat split; reflexivity.
  - unfold bind, ret in E.
    pose proof (range_plugs_spec (Key event) plugs w0) as S.
    destruct (range_plugs (Key event) plugs w0) as [[plugs' w1] evs1].
    destruct S as (St & Sd & Sf).
    cbn [app] in E. rewrite !app_nil_r in E. injection E as <- <- <-.
    exists plugs'. cbn [toggled dials]. repeat split; assumption.
Qed.

(** For trigger keys and event keys within sixteen bits the comparison of
    [main] is equality of integers. *)
Lemma matches_in_range (key : Z) (p : plug) :
  0 <= TriggerKey p < 2 ^ 16 ->
  matches key p = (TriggerKey p =? key).
Proof.
  intros Hr. unfold matches, Key_of_int. rewrite Z.mod_small by exact Hr.
  reflexivity.
Qed.

(** ** The properties at concrete inputs *)

Lemma encrypt_layout_witness :
  (Z.of_nat (List.length [x7b; x7d]) < 2 ^ 32 /\
   Uint32 (firstn 4 (encrypt [x7b; x7d])) = Z.of_nat (List.length [x7b; x7d])) /\
  (nth_error [x7b; x7d] 1 = Some x7d /\
   nth_error (encrypt [x7b; x7d]) (4 + 1) =
     Some (byte_of_int
             (Z.lxor (key_before (encrypt [x7b; x7d]) 1) (int_of_byte x7d)))).
Proof.
  destruct (encrypt_layout [x7b; x7d]) as (_ & _ & Hlen & Hnth & _).
  split; split.
  - reflexivity.
  - apply Hlen. reflexivity.
  - reflexivity.
  - apply (Hnth 1%nat x7d). reflexivity.
Defined.

(** The known vector: the query command, enciphered. *)
Example encrypt_sysinfo :
  map int_of_byte (encrypt (bytes_of payload_sysinfo)) =
    [0; 0; 0; 29; 208; 242; 129; 248; 139; 255; 154; 247; 213; 239; 148;
     182; 209; 180; 192; 159; 236; 149; 230; 143; 225; 135; 232; 202; 240;
     139; 246; 139; 246].
Proof. vm_compute. reflexivity. Qed.

(** A command sent 100 ms after the last one sleeps 500 ms, not the 400 ms
    that remain of the interval. *)
Lemma sendCmd_sleeps_whole_interval :
  let p := set_lastCmd startup plug_a in
  let w := world_of (startup + 100 * Millisecond) (fun _ => Reads []) in
  Sub (now w) (lastCmd p) = 100 * Millisecond /\
  sleeps (snd (sendCmd p payload_sysinfo w)) = [500 * Millisecond] /\
  sleeps (snd (sendCmd p payload_sysinfo w)) <>
    [500 * Millisecond - Sub (now w) (lastCmd p)].
Proof.
  vm_compute. repeat split; discriminate.
Qed.

(** A plug that has never been sent a command is not made to wait: the
    time since the zero [time.Time] saturates far above 500 ms. *)
Example sendCmd_first_command_does_not_sleep :
  sleeps (snd (sendCmd plug_a payload_sysinfo
                 (world_of startup (fun _ => Reads [])))) = [].
Proof. vm_compute. reflexivity. Qed.

Lemma sendCmd_rate_guard_witness :
  let w := world_of startup (fun _ => Reads []) in
  let p1 := fst (fst (fst (sendCmd plug_a payload_sysinfo w))) in
  let w1 := snd (fst (sendCmd plug_a payload_sysinfo w)) in
  lastCmd p1 = lastCmd p1 /\
  now w1 <= now w1 /\
  In (startup, encrypt (bytes_of payload_sysinfo))
     (writes (snd (sendCmd plug_a payload_sysinfo w))) /\
  In (startup + 500 * Millisecond, encrypt (bytes_of payload_sysinfo))
     (writes (snd (sendCmd p1 payload_sysinfo w1))) /\
  startup + Millisecond * 500 <= startup + 500 * Millisecond.
Proof.
  intros w p1 w1.
  assert (H1 : In (startup, encrypt (bytes_of payload_sysinfo))
                 (writes (snd (sendCmd plug_a payload_sysinfo w))))
    by (vm_compute; left; reflexivity).
  assert (H2 : In (startup + 500 * Millisecond,
                   encrypt (bytes_of payload_sysinfo))
                 (writes (snd (sendCmd p1 payload_sysinfo w1))))
    by (vm_compute; left; reflexivity).
  split; [reflexivity|]. split; [apply Z.le_refl|].
  split; [exact H1|]. split; [exact H2|].
  pose proof (sendCmd_rate_guard plug_a payload_sysinfo w) as G.
  subst p1 w1.
  destruct (sendCmd plug_a payload_sysinfo w) as [[[q r] v] evs1].
  destruct G as (_ & _ & _ & _ & _ & G).
  specialize (G q payload_sysinfo v eq_refl (Z.le_refl _)).
  cbn [fst snd] in H1, H2.
  destruct (sendCmd q payload_sysinfo v) as [[[q' r'] v'] evs2].
  exact (G _ _ _ _ H1 H2).
Defined.

(** The query of the only plug fails in one world and succeeds in another,
    and [getSystemInfo] hands the caller the same plugs in both: the
    failure shows on standard output only. *)
Lemma getSystemInfo_failure_not_returned :
  let w_fail := world_of startup (fun _ => DialFails) in
  let w_ok := world_of startup (fun _ => Reads reply_empty_object) in
  errors (snd (getSystemInfo Unmarshal_empty_object [plug_a] w_fail)) =
    [ErrConnecting] /\
  errors (snd (getSystemInfo Unmarshal_empty_object [plug_a] w_ok)) = [] /\
  founds (snd (getSystemInfo Unmarshal_empty_object [plug_a] w_ok)) =
    [EmptyString] /\
  fst (fst (getSystemInfo Unmarshal_empty_object [plug_a] w_fail)) =
  fst (fst (getSystemInfo Unmarshal_empty_object [plug_a] w_ok)).
Proof.
  vm_compute. repeat split; reflexivity.
Qed.

(** Three plugs, the second unreachable: the third is never dialled and
    comes back as it went in. *)
Example getSystemInfo_second_of_three_fails :
  let r := getSystemInfo Unmarshal_empty_object [plug_a; plug_b; plug_c]
             (world_of startup second_fails) in
  dials (snd r) = ["10.0.0.5:9999"; "10.0.0.6:9999"] /\
  errors (snd r) = [ErrConnecting] /\
  nth_error (fst (fst r)) 2 = Some plug_c.
Proof.
  vm_compute. repeat split; reflexivity.
Qed.

Lemma getSystemInfo_fail_fast_witness :
  let w := world_of startup second_fails in
  let plugs := [plug_a; plug_b; plug_c] in
  let r := getSystemInfo Unmarshal_empty_object plugs w in
  (successes Unmarshal_empty_object (net w) (conns w) (List.length plugs)
   < List.length plugs)%nat /\
  query_result Unmarshal_empty_object (net w (conns w + 1)%nat) =
    inr ErrConnecting /\
  errors (snd r) = [ErrConnecting] /\
  dials (snd r) = [addr_of plug_a; addr_of plug_b] /\
  skipn 2 (fst (fst r)) = [plug_c].
Proof.
  intros w plugs r.
  assert (Hlt : (successes Unmarshal_empty_object (net w) (conns w)
                   (List.length plugs) < List.length plugs)%nat)
    by (vm_compute; lia).
  split; [exact Hlt|]. split; [reflexivity|].
  pose proof (getSystemInfo_fail_fast Unmarshal_empty_object plugs w) as H.
  subst r.
  destruct (getSystemInfo Unmarshal_empty_object plugs w) as [[ps v] evs].
  cbv zeta in H.
  destruct H as (Hd & _ & _ & _ & Hs & _ & _ & _ & Hfail).
  destruct (Hfail Hlt) as (e & q & q' & Hr & He & _).
  change (successes Unmarshal_empty_object (net w) (conns w)
            (List.length plugs)) with 1%nat in Hr, Hd, Hs.
  change (query_result Unmarshal_empty_object (net w (conns w + 1)%nat))
    with (@inr info error ErrConnecting) in Hr.
  injection Hr as <-. cbn [fst snd].
  split; [exact He|]. split; [exact Hd|exact Hs].
Defined.

(** After a failed query [main] goes on to the event loop: the key of the
    plug still toggles it. *)
Example main_listens_after_failed_query :
  let r := main Unmarshal_empty_object ["kasa-internal"; "10.0.0.5:49"] true
             [mkEvent EventKey 49 0] (world_of startup (fun _ => DialFails)) in
  errors (snd r) = [ErrConnecting] /\
  toggled (snd r) = [EmptyString] /\
  snd (fst (fst r)) = Polling.
Proof.
  vm_compute. repeat split; reflexivity.
Qed.

(** A plug bound to 65549 is toggled by the key 13: the conversion to the
    key type drops the bits from the sixteenth on. *)
Lemma loop_body_toggles_on_wrapped_key :
  let event := mkEvent EventKey 13 0 in
  let r := loop_body event [plug_wide] (world_of startup (fun _ => Reads [])) in
  TriggerKey plug_wide <> Key event /\
  toggled (snd r) = ["lamp"] /\
  dials (snd r) = ["10.0.0.5:9999"].
Proof.
  vm_compute. repeat split; try reflexivity. discriminate.
Qed.

(** * Further properties of the code *)

(** ** The codec, both ways *)

(** The encoding loop undoes the decoding loop: the cipher is a bijection
    on payloads for a fixed starting key. *)
Lemma encrypt_loop_decrypt_loop (bx : list byte) :
  forall key, 0 <= key < 256 ->
    encrypt_loop key (decrypt_loop key bx) = bx.
Proof.
  induction bx as [|c rest IH]; intros key Hkey; cbn; [reflexivity|].
  pose proof (lxor_byte_range key (int_of_byte c) Hkey (int_of_byte_range c))
    as Hb.
  rewrite (int_of_byte_of_int _ Hb), lxor_cancel, byte_of_int_of_byte.
  rewrite (IH _ (int_of_byte_range c)). reflexivity.
Qed.

Lemma encrypt_loop_firstn (n : nat) :
  forall bx key,
    firstn n (encrypt_loop key bx) = encrypt_loop key (firstn n bx).
Proof.
  induction n as [|n IH]; intros bx key; [reflexivity|].
  destruct bx as [|p rest]; [reflexivity|].
  cbn. rewrite IH. reflexivity.
Qed.

Lemma decrypt_loop_nth (bx : list byte) :
  forall key i,
    nth_error (decrypt_loop key bx) i =
      match nth_error bx i with
      | Some c =>
          Some (byte_of_int
                  (Z.lxor (match i with
                           | O => key
                           | S j => int_of_byte (nth j bx x00)
                           end) (int_of_byte c)))
      | None => None
      end.
Proof.
  induction bx as [|c0 rest IH]; intros key i.
  - destruct i; reflexivity.
  - destruct i as [|j]; [reflexivity|].
    cbn [decrypt_loop nth_error]. rewrite IH.
    destruct j; reflexivity.
Qed.

Lemma nth_of_nth_error {A} (l l' : list A) (n : nat) (d : A) :
  nth_error l n = nth_error l' n -> nth n l d = nth n l' d.
Proof.
  intros H. rewrite <- !nth_default_eq. unfold nth_default. rewrite H.
  reflexivity.
Qed.

(** X1.  Encoding a decoded frame gives back the payload of the frame
    byte for byte, under a length prefix computed afresh from the number of
    payload bytes; the four bytes that were skipped are not looked at. *)
Theorem encrypt_decrypt (bx : list byte) :
  encrypt (decrypt bx) =
    PutUint32 (uint32 (Z.of_nat (List.length bx - 4))) ++ skipn 4 bx.
Proof.
  unfold encrypt, decrypt.
  rewrite decrypt_loop_length, length_skipn.
  rewrite encrypt_loop_decrypt_loop by lia. reflexivity.
Qed.

(** The decoding loop on a cut payload. *)
Lemma decrypt_loop_firstn (n : nat) (P : list byte) :
  decrypt_loop 171 (firstn n (encrypt_loop 171 P)) = firstn n P.
Proof.
  rewrite encrypt_loop_firstn. apply decrypt_loop_encrypt_loop. lia.
Qed.

Lemma firstn_past_prefix (n : nat) (a b c d : byte) (rest : list byte) :
  firstn (4 + n) (a :: b :: c :: d :: rest) =
    a :: b :: c :: d :: firstn n rest.
Proof. reflexivity. Qed.

(** What the read buffer of [sendCmd] leaves of a framed plaintext. *)
Lemma decrypt_read_buffer (J : list byte) :
  decrypt (firstn 2048 (encrypt J)) = firstn 2044 J.
Proof.
  unfold encrypt, PutUint32. cbn [app].
  change 2048%nat with (4 + 2044)%nat.
  rewrite firstn_past_prefix, decrypt_skips_prefix.
  apply decrypt_loop_firstn.
Qed.

(** X2.  Decoding a frame cut after [4 + n] bytes gives the first [n]
    bytes of the plaintext: a reply that overflows the read buffer still
    decodes to a prefix of what was sent. *)
Theorem decrypt_truncated (n : nat) (P : list byte) :
  decrypt (firstn (4 + n) (encrypt P)) = firstn n P.
Proof.
  unfold encrypt, PutUint32. cbn [app].
  rewrite firstn_past_prefix, decrypt_skips_prefix.
  apply decrypt_loop_firstn.
Qed.

(** X3.  [encrypt] is injective: two plaintexts with the same frame are
    the same plaintext. *)
Theorem encrypt_injective (P Q : list byte) :
  encrypt P = encrypt Q -> P = Q.
Proof.
  intros H. apply (f_equal (skipn 4)) in H.
  unfold encrypt, PutUint32 in H. cbn [app skipn] in H.
  apply (f_equal (decrypt_loop 171)) in H.
  rewrite !decrypt_loop_encrypt_loop in H by lia. exact H.
Qed.

Lemma encrypt_injective_witness :
  encrypt [x7b; x7d] = encrypt [x7b; x7d] /\ [x7b; x7d] = [x7b; x7d].
Proof.
  split; [reflexivity|].
  apply (encrypt_injective [x7b; x7d] [x7b; x7d]). reflexivity.
Defined.

(** X4.  A change of one byte of a frame, at index [j], changes at most
    the two plaintext bytes at indices [j - 4] and [j - 3]: each decoded
    byte depends on its own cipher byte and the one before it only. *)
Theorem decrypt_local (bx bx' : list byte) (j : nat) :
  (forall k, k <> j -> nth_error bx k = nth_error bx' k) ->
  forall i, (4 + i <> j)%nat -> (4 + i <> S j)%nat ->
    nth_error (decrypt bx) i = nth_error (decrypt bx') i.
Proof.
  intros Hsame i Hi Hi'. unfold decrypt.
  rewrite !decrypt_loop_nth, !nth_error_skipn.
  rewrite (Hsame (4 + i)%nat Hi).
  destruct (nth_error bx' (4 + i)) as [c|]; [|reflexivity].
  destruct i as [|i']; [reflexivity|].
  do 2 f_equal. f_equal. f_equal.
  rewrite <- !nth_default_eq. unfold nth_default.
  rewrite !nth_error_skipn. rewrite (Hsame (4 + i')%nat) by lia.
  reflexivity.
Qed.

Lemma decrypt_local_witness :
  (forall k, k <> 4%nat ->
     nth_error [x00; x00; x00; x04; xd0; xf2; x81; xf8] k =
     nth_error [x00; x00; x00; x04; xff; xf2; x81; xf8] k) /\
  nth_error (decrypt [x00; x00; x00; x04; xd0; xf2; x81; xf8]) 0 = Some x7b /\
  nth_error (decrypt [x00; x00; x00; x04; xff; xf2; x81; xf8]) 0 = Some x54 /\
  nth_error (decrypt [x00; x00; x00; x04; xd0; xf2; x81; xf8]) 2 = Some x73 /\
  nth_error (decrypt [x00; x00; x00; x04; xd0; xf2; x81; xf8]) 2 =
  nth_error (decrypt [x00; x00; x00; x04; xff; xf2; x81; xf8]) 2 /\
  nth_error (decrypt [x00; x00; x00; x04; xd0; xf2; x81; xf8]) 3 =
  nth_error (decrypt [x00; x00; x00; x04; xff; xf2; x81; xf8]) 3.
Proof.
  assert (H : forall k, k <> 4%nat ->
     nth_error [x00; x00; x00; x04; xd0; xf2; x81; xf8] k =
     nth_error [x00; x00; x00; x04; xff; xf2; x81; xf8] k).
  { intros k Hk. do 4 (destruct k as [|k]; [reflexivity|]).
    destruct k as [|k]; [contradiction|]. reflexivity. }
  split; [exact H|].
  split; [reflexivity|]. split; [reflexivity|]. split; [reflexivity|].
  split.
  - apply (decrypt_local _ _ 4%nat H 2%nat); cbn; lia.
  - apply (decrypt_local _ _ 4%nat H 3%nat); cbn; lia.
Defined.

(** X5.  [decrypt] accepts any four bytes in place of the length prefix,
    also four bytes that misstate the length: the payload alone decides the
    result. *)
Theorem decrypt_any_prefix (a P : list byte) :
  List.length a = 4%nat -> decrypt (a ++ skipn 4 (encrypt P)) = P.
Proof.
  intros Ha.
  destruct a as [|a0 [|a1 [|a2 [|a3 [|a4 a]]]]]; try discriminate.
  unfold encrypt, PutUint32. cbn [app skipn].
  rewrite decrypt_skips_prefix.
  apply decrypt_loop_encrypt_loop. lia.
Qed.

Lemma decrypt_any_prefix_witness :
  List.length [xff; xff; xff; xff] = 4%nat /\
  decrypt ([xff; xff; xff; xff] ++ skipn 4 (encrypt [x7b; x7d])) = [x7b; x7d].
Proof.
  split; [reflexivity|].
  apply (decrypt_any_prefix [xff; xff; xff; xff] [x7b; x7d]). reflexivity.
Defined.

(** ** The mapping parser, further *)

Lemma Split_no_sep (s : string) (sep : ascii) :
  Forall (fun part => occurs sep part = false) (Split s sep).
Proof.
  induction s as [|c rest IH]; cbn [Split].
  - constructor; [reflexivity|constructor].
  - destruct (Ascii.eqb c sep) eqn:E.
    + constructor; [reflexivity|exact IH].
    + destruct (Split rest sep) as [|h t]; inversion IH; subst.
      * constructor; [cbn; rewrite E; reflexivity|constructor].
      * constructor; [cbn; rewrite E; assumption|assumption].
Qed.

Lemma Split_chars (s : string) (sep c : ascii) :
  occurs c s = false ->
  Forall (fun part => occurs c part = false) (Split s sep).
Proof.
  induction s as [|c0 rest IH]; cbn [Split occurs]; intros H.
  - constructor; [reflexivity|constructor].
  - apply orb_false_elim in H as [Hc Hrest]. specialize (IH Hrest).
    destruct (Ascii.eqb c0 sep).
    + constructor; [reflexivity|exact IH].
    + destruct (Split rest sep) as [|h t]; inversion IH; subst.
      * constructor; [cbn; rewrite Hc; reflexivity|constructor].
      * constructor; [cbn; rewrite Hc; assumption|assumption].
Qed.

Lemma Split_app (a b : string) (sep : ascii) :
  Split (a ++ String sep b) sep = Split a sep ++ Split b sep.
Proof.
  induction a as [|c rest IH]; cbn [String.append Split].
  - rewrite Ascii.eqb_refl. reflexivity.
  - rewrite IH. destruct (Ascii.eqb c sep); [reflexivity|].
    pose proof (Split_nonempty rest sep) as Hne.
    destruct (Split rest sep) as [|h t]; [contradiction|reflexivity].
Qed.

Lemma processMapping_loop_app (xs ys : list string) :
  forall plugs,
    processMapping_loop (xs ++ ys) plugs =
      match processMapping_loop xs plugs with
      | Returns l => processMapping_loop ys l
      | Panics e => Panics e
      end.
Proof.
  induction xs as [|x xs IH]; intros plugs; [reflexivity|].
  cbn [app processMapping_loop].
  destruct (nth_error (Split x ":") 1) as [key|]; [|reflexivity].
  destruct (Atoi key) as [k|e]; [|reflexivity].
  destruct (nth_error (Split x ":") 0) as [ip|]; [|reflexivity].
  apply IH.
Qed.

Lemma processMapping_loop_acc (xs : list string) :
  forall plugs,
    processMapping_loop xs plugs =
      match processMapping_loop xs [] with
      | Returns l => Returns (plugs ++ l)
      | Panics e => Panics e
      end.
Proof.
  induction xs as [|x xs IH]; intros plugs.
  - cbn. rewrite app_nil_r. reflexivity.
  - cbn [processMapping_loop].
    destruct (nth_error (Split x ":") 1) as [key|]; [|reflexivity].
    destruct (Atoi key) as [k|e]; [|reflexivity].
    destruct (nth_error (Split x ":") 0) as [ip|]; [|reflexivity].
    rewrite (IH (plugs ++ _)), (IH ([] ++ _)).
    destruct (processMapping_loop xs []) as [l|e]; [|reflexivity].
    rewrite <- app_assoc. reflexivity.
Qed.

Lemma processMapping_returns (m : string) (plugs : list plug) :
  processMapping m = Returns plugs ->
  existsb rejected (Split m ",") = false /\
  plugs = map plug_of_entry (Split m ",").
Proof.
  unfold processMapping. intros H.
  destruct (processMapping_loop_spec (Split m ",") []) as [Hok Hbad].
  destruct (existsb rejected (Split m ",")) eqn:E.
  - destruct (Hbad eq_refl) as [e He]. rewrite He in H. discriminate.
  - rewrite (Hok eq_refl) in H. injection H as <-. split; reflexivity.
Qed.

(** X6.  Parsing composes over the comma: the mapping [a,b] is parsed as
    [a] followed by [b].  It panics as [a] does if [a] panics, otherwise as
    [b] does if [b] panics, and otherwise returns the plugs of [a] followed
    by the plugs of [b]. *)
Theorem processMapping_comma (a b : string) :
  processMapping (a ++ "," ++ b) =
    match processMapping a with
    | Panics e => Panics e
    | Returns pa =>
        match processMapping b with
        | Panics e => Panics e
        | Returns pb => Returns (pa ++ pb)
        end
    end.
Proof.
  unfold processMapping. cbn [String.append].
  rewrite Split_app, processMapping_loop_app.
  destruct (processMapping_loop (Split a ",") []) as [pa|e]; [|reflexivity].
  apply processMapping_loop_acc.
Qed.

(** X7.  An empty pair is fatal wherever it stands: the empty mapping, a
    mapping that ends in a comma and a mapping that starts with one all
    make [processMapping] panic.  In particular it never returns an empty
    list of plugs. *)
Theorem processMapping_empty_pair (a : string) :
  processMapping EmptyString = Panics IndexOutOfRange /\
  (exists e, processMapping (a ++ ",") = Panics e) /\
  (exists e, processMapping ("," ++ a) = Panics e) /\
  processMapping a <> Returns [].
Proof.
  split; [reflexivity|]. split; [|split].
  - unfold processMapping. rewrite Split_app, processMapping_loop_app.
    destruct (processMapping_loop (Split a ",") []) as [pa|e].
    + eexists. reflexivity.
    + eexists. reflexivity.
  - eexists. reflexivity.
  - intros H. apply processMapping_returns in H as [_ H].
    pose proof (Split_nonempty a ",") as Hne.
    destruct (Split a ","); [contradiction|discriminate].
Qed.

Lemma Forall_map_plug {P : plug -> Prop} (entries : list string) :
  (forall entry, In entry entries -> rejected entry = false ->
     P (plug_of_entry entry)) ->
  existsb rejected entries = false ->
  Forall P (map plug_of_entry entries).
Proof.
  induction entries as [|x xs IH]; intros HP Hrej; [constructor|].
  cbn [existsb] in Hrej. apply orb_false_elim in Hrej as [Hx Hxs].
  cbn [map]. constructor.
  - apply HP; [left; reflexivity|exact Hx].
  - apply IH; [|exact Hxs]. intros e He. apply HP. right. exact He.
Qed.

(** X8.  When [processMapping] returns, it returns one plug per
    comma-separated pair, and every plug is fresh: no name, no model, off,
    and with no command sent yet. *)
Theorem processMapping_fresh (m : string) (plugs : list plug) :
  processMapping m = Returns plugs ->
  List.length plugs = List.length (Split m ",") /\
  Forall fresh plugs.
Proof.
  intros H. apply processMapping_returns in H as [Hrej ->].
  split; [apply length_map|].
  apply Forall_map_plug; [|exact Hrej].
  intros entry _ _. unfold fresh, plug_of_entry. cbn. repeat split.
Qed.

Lemma processMapping_fresh_witness :
  processMapping "10.0.0.5:49,10.0.0.6:50" = Returns [plug_a; plug_b] /\
  List.length [plug_a; plug_b] =
    List.length (Split "10.0.0.5:49,10.0.0.6:50" ",") /\
  Forall fresh [plug_a; plug_b].
Proof.
  split; [reflexivity|].
  apply (processMapping_fresh "10.0.0.5:49,10.0.0.6:50" [plug_a; plug_b]).
  reflexivity.
Defined.

(** X9.  The address of a plug returned by [processMapping] contains
    neither a colon nor a comma, so that the host and the port of the
    address dialled, [IPAddress ++ ":9999"], are told apart by its only
    colon. *)
Theorem processMapping_address (m : string) (plugs : list plug) :
  processMapping m = Returns plugs ->
  Forall (fun p => occurs ":" (IPAddress p) = false /\
                   occurs "," (IPAddress p) = false) plugs.
Proof.
  intros H. apply processMapping_returns in H as [Hrej ->].
  apply Forall_map_plug; [|exact Hrej].
  intros entry Hin _. unfold plug_of_entry, parts_of. cbn [IPAddress].
  pose proof (Split_nonempty entry ":") as Hne.
  pose proof (Split_no_sep entry ":") as Hcolon.
  assert (Hcomma : occurs "," entry = false).
  { pose proof (Split_no_sep m ",") as F.
    rewrite Forall_forall in F. apply F. exact Hin. }
  pose proof (Split_chars entry ":" "," Hcomma) as Hc.
  destruct (Split entry ":") as [|ip rest]; [contradiction|].
  inversion Hcolon; inversion Hc; subst. cbn [nth]. split; assumption.
Qed.

Lemma processMapping_address_witness :
  processMapping "10.0.0.5:49,10.0.0.6:50" = Returns [plug_a; plug_b] /\
  Forall (fun p => occurs ":" (IPAddress p) = false /\
                   occurs "," (IPAddress p) = false) [plug_a; plug_b].
Proof.
  split; [reflexivity|].
  apply (processMapping_address "10.0.0.5:49,10.0.0.6:50"). reflexivity.
Defined.

(** ** The command path, further *)

Ltac split_cases_more :=
  split_cases;
  cbn [closes reads List.length].

Lemma ops_app (a b : trace) : ops (a ++ b) = ops a ++ ops b.
Proof.
  induction a as [|[t e] a IH]; [reflexivity|].
  destruct e; cbn [app ops]; rewrite IH; reflexivity.
Qed.

Lemma ops_writes (a : trace) : In OpWrite (ops a) -> writes a <> [].
Proof.
  induction a as [|[t e] a IH]; [contradiction|].
  destruct e; cbn [ops writes In]; intros H; try (apply IH; exact H);
    try (destruct H as [H|H]; [discriminate|apply IH; exact H]).
  discriminate.
Qed.

Lemma ops_closes (a : trace) : In OpClose (ops a) -> closes a <> [].
Proof.
  induction a as [|[t e] a IH]; [contradiction|].
  destruct e; cbn [ops closes In]; intros H; try (apply IH; exact H);
    try (destruct H as [H|H]; [discriminate|apply IH; exact H]).
  discriminate.
Qed.

Lemma ops_no_close (a : trace) : ~ In OpClose (ops a) -> closes a = [].
Proof.
  induction a as [|[t e] a IH]; [reflexivity|].
  destruct e; cbn [ops closes In]; intros H; try (apply IH; exact H);
    try (apply IH; intros Hin; apply H; right; exact Hin).
  exfalso. apply H. left. reflexivity.
Qed.

(** Where a read stands in a complete exchange. *)
Lemma split_at_read (l1 l2 : list netop) :
  l1 ++ OpRead :: l2 = [OpDial; OpSetDeadline; OpWrite; OpRead; OpClose] ->
  l1 = [OpDial; OpSetDeadline; OpWrite] /\ l2 = [OpClose].
Proof.
  intros H.
  destruct l1 as [|x1 l1]; [discriminate|]. injection H as -> H.
  destruct l1 as [|x2 l1]; [discriminate|]. injection H as -> H.
  destruct l1 as [|x3 l1]; [discriminate|]. injection H as -> H.
  destruct l1 as [|x4 l1].
  - injection H as <-. split; reflexivity.
  - injection H as -> H. destruct l1 as [|x5 l1]; [discriminate|].
    injection H as -> H. destruct l1; discriminate.
Qed.

(** X10.  One call of [sendCmd] uses one connection in a fixed order:
    dial; when the dial succeeded, set the deadline; when that succeeded,
    write; when the write succeeded, read; and close, last, whenever the
    dial succeeded.  So exactly one connection is dialled, it is closed
    exactly once when the dial succeeded and never when it failed, at most
    one write and one read take place, and every read comes after a write
    and before the close. *)
Theorem sendCmd_connection (p : plug) (data : string) (w : world) :
  let '(_, _, _, evs) := sendCmd p data w in
  let o := outcome (net w (conns w)) in
  ops evs =
    match o with
    | DialFails => [OpDial]
    | SetDeadlineFails => [OpDial; OpSetDeadline; OpClose]
    | WriteFails => [OpDial; OpSetDeadline; OpWrite; OpClose]
    | ReadFails | Reads _ =>
        [OpDial; OpSetDeadline; OpWrite; OpRead; OpClose]
    end /\
  List.length (dials evs) = 1%nat /\
  List.length (closes evs) =
    (match o with DialFails => 0 | _ => 1 end)%nat /\
  List.length (writes evs) = (if reaches_write o then 1 else 0)%nat /\
  List.length (reads evs) =
    (match o with ReadFails | Reads _ => 1 | _ => 0 end)%nat /\
  (forall a t b,
     evs = a ++ (t, EvRead) :: b ->
     writes a <> [] /\ closes a = [] /\ closes b <> []).
Proof.
  assert (Hops : let '(_, _, _, evs) := sendCmd p data w in
                 ops evs =
                   match outcome (net w (conns w)) with
                   | DialFails => [OpDial]
                   | SetDeadlineFails => [OpDial; OpSetDeadline; OpClose]
                   | WriteFails => [OpDial; OpSetDeadline; OpWrite; OpClose]
                   | ReadFails | Reads _ =>
                       [OpDial; OpSetDeadline; OpWrite; OpRead; OpClose]
                   end /\
                 List.length (dials evs) = 1%nat /\
                 List.length (closes evs) =
                   (match outcome (net w (conns w)) with
                    | DialFails => 0 | _ => 1 end)%nat /\
                 List.length (writes evs) =
                   (if reaches_write (outcome (net w (conns w)))
                    then 1 else 0)%nat /\
                 List.length (reads evs) =
                   (match outcome (net w (conns w)) with
                    | ReadFails | Reads _ => 1 | _ => 0 end)%nat).
  { run. split_cases_more; cbn [ops]; repeat split; reflexivity. }
  destruct (sendCmd p data w) as [[[p1 r] w1] evs]. cbv zeta.
  destruct Hops as (Ho & Hd & Hc & Hw & Hr).
  split; [exact Ho|]. split; [exact Hd|]. split; [exact Hc|].
  split; [exact Hw|]. split; [exact Hr|].
  intros a t b Hsplit.
  assert (Hin : In OpRead (ops evs)).
  { rewrite Hsplit, ops_app. apply in_or_app. right. left. reflexivity. }
  rewrite Ho in Hin.
  assert (Hfull : ops a ++ OpRead :: ops b =
                  [OpDial; OpSetDeadline; OpWrite; OpRead; OpClose]).
  { rewrite Hsplit, ops_app in Ho. cbn [ops] in Ho. rewrite Ho.
    destruct (outcome (net w (conns w))); try reflexivity;
      cbn [In] in Hin; repeat (destruct Hin as [Hin|Hin]; try discriminate);
      contradiction. }
  apply split_at_read in Hfull as [Ha Hb].
  split; [|split].
  - apply ops_writes. rewrite Ha. right. right. left. reflexivity.
  - apply ops_no_close. rewrite Ha. cbn [In].
    intros [H|[H|[H|H]]]; try discriminate. exact H.
  - apply ops_closes. rewrite Hb. left. reflexivity.
Qed.

Lemma length_decrypt_firstn (n : nat) (bx : list byte) :
  (List.length (decrypt (firstn n bx)) <= n - 4)%nat.
Proof.
  unfold decrypt. rewrite decrypt_loop_length, length_skipn, length_firstn.
  lia.
Qed.

(** X11.  What [sendCmd] hands back: with an error, the untouched buffer
    of 2048 zero bytes (not an empty slice); without one, at most 2044
    bytes of plaintext, however long the reply of the device is. *)
Theorem sendCmd_result_bounds (p : plug) (data : string) (w : world) :
  let '(_, (res, err), _, _) := sendCmd p data w in
  match err with
  | Some _ => res = repeat x00 2048
  | None => (List.length res <= 2044)%nat
  end.
Proof.
  run. split_cases; try reflexivity; apply (length_decrypt_firstn 2048).
Qed.

(** Deciphering any cut of a frame. *)
Lemma decrypt_cut_frame (m : nat) (J : list byte) :
  decrypt (firstn m (encrypt J)) = firstn (m - 4) J.
Proof.
  destruct (le_lt_dec 4 m) as [Hm|Hm].
  - replace m with (4 + (m - 4))%nat at 1 by lia.
    unfold encrypt, PutUint32. cbn [app].
    rewrite firstn_past_prefix, decrypt_skips_prefix.
    apply decrypt_loop_firstn.
  - unfold decrypt. rewrite skipn_all2.
    + replace (m - 4)%nat with 0%nat by lia. reflexivity.
    + rewrite length_firstn. lia.
Qed.

(** What the buffer of [sendCmd] keeps of the first [k] bytes of a
    frame. *)
Lemma decrypt_delivered (k : nat) (J : list byte) :
  decrypt (firstn 2048 (firstn k (encrypt J))) =
    firstn (Nat.min k 2048 - 4) J.
Proof.
  rewrite firstn_firstn, (Nat.min_comm 2048 k). apply decrypt_cut_frame.
Qed.

(** X12.  [sendCmd] calls [conn.Read] once and deciphers what that one
    call delivered; it never reads again to complete a frame.  If the call
    delivers the first [k] bytes of the frame of a plaintext [J] (all of it
    when [k] is the length of the frame or more), [sendCmd] returns without
    error the first [min k 2048 - 4] bytes of [J]: nothing when only the
    prefix arrived, a proper prefix of [J] when the frame arrived in part
    or overflows the buffer of 2048 bytes, and [J] itself when the whole
    frame arrived and [J] has at most 2044 bytes. *)
Theorem sendCmd_returns_plaintext (p : plug) (data : string) (w : world)
        (J : list byte) (k : nat) :
  outcome (net w (conns w)) = Reads (firstn k (encrypt J)) ->
  let '(_, (res, err), _, evs) := sendCmd p data w in
  res = firstn (Nat.min k 2048 - 4) J /\
  err = None /\
  List.length (reads evs) = 1%nat.
Proof.
  intros Ho. run. rewrite Ho. split_cases_more;
    (split; [apply decrypt_delivered|split; reflexivity]).
Qed.

Lemma sendCmd_returns_plaintext_witness :
  let segment := firstn 5 (encrypt [x7b; x7d]) in
  let w := world_of startup (fun _ => Reads segment) in
  outcome (net w (conns w)) = Reads (firstn 5 (encrypt [x7b; x7d])) /\
  fst (snd (fst (fst (sendCmd plug_a payload_sysinfo w)))) = [x7b].
Proof.
  intros segment w. split; [reflexivity|].
  pose proof (sendCmd_returns_plaintext plug_a payload_sysinfo w
                [x7b; x7d] 5 eq_refl) as H.
  destruct (sendCmd plug_a payload_sysinfo w) as [[[q [res err]] v] evs].
  destruct H as [H _]. exact H.
Defined.

(** X13.  [turnOn] writes the frame of the JSON text that sets the relay
    state to 1 and [turnOff] the frame of the text that sets it to 0, as
    the source spells them, and the two frames differ.  Neither touches the
    cached flag, also when the command succeeds: the plug afterwards is the
    plug before with a new [lastCmd] only. *)
Theorem turnOn_turnOff_keep_flag (p : plug) (w : world) :
  (let '(p', err, _, evs) := turnOn p w in
   p' = set_lastCmd (lastCmd p') p /\
   On p' = On p /\
   err = error_of (outcome (net w (conns w))) /\
   map snd (writes evs) =
     (if reaches_write (outcome (net w (conns w)))
      then [encrypt json_relay_on] else [])) /\
  (let '(p', err, _, evs) := turnOff p w in
   p' = set_lastCmd (lastCmd p') p /\
   On p' = On p /\
   err = error_of (outcome (net w (conns w))) /\
   map snd (writes evs) =
     (if reaches_write (outcome (net w (conns w)))
      then [encrypt json_relay_off] else [])) /\
  encrypt json_relay_off <> encrypt json_relay_on.
Proof.
  split; [|split; [|exact relay_frames_differ]];
    destruct p as [ip key mo na on lc];
    run; split_cases; repeat split; reflexivity.
Qed.

Lemma writes_app (a b : trace) : writes (a ++ b) = writes a ++ writes b.
Proof.
  induction a as [|[t e] a IH]; [reflexivity|].
  destruct e; cbn [app writes]; rewrite IH; reflexivity.
Qed.


(** [toggle] is one [sendCmd] of the command chosen by the flag, then the
    write of the flag and a line of output. *)
Lemma toggle_as_sendCmd (p : plug) (w : world) :
  toggle p w =
    let '(p1, (_, err), w1, evs1) := sendCmd p (relay_command (On p)) w in
    (set_On (negb (On p)) p1, err, w1,
     evs1 ++ [(now w1, EvPrint (OutToggled (Name p1) (now w1)))]).
Proof.
  unfold toggle, relay_command.
  destruct (On p); unfold turnOn, turnOff, bind at 1 2;
    match goal with
    | |- context [sendCmd p ?d w] =>
        destruct (sendCmd p d w) as [[[p1 [res err]] w1] evs1]
    end;
    unfold bind, ret, Now, Println, emit; cbn [now app];
    rewrite app_nil_r; reflexivity.
Qed.

(** What the loop and the composition of toggles need of one [toggle]:
    the flag, the clock, and the times and payloads of its writes. *)
Lemma toggle_wire (p : plug) (w : world) :
  let '(p', _, w', evs) := toggle p w in
  On p' = negb (On p) /\
  lastCmd p' = now w' /\
  now w <= now w' /\
  map snd (writes evs) =
    (if reaches_write (outcome (net w (conns w)))
     then [encrypt (bytes_of (relay_command (On p)))] else []) /\
  (forall t pay, In (t, pay) (writes evs) ->
     now w <= t <= now w' /\
     (lastCmd p <= now w -> lastCmd p + Millisecond * 500 <= t)).
Proof.
  rewrite toggle_as_sendCmd.
  pose proof (sendCmd_facts p (relay_command (On p)) w) as F.
  destruct (sendCmd p (relay_command (On p)) w) as [[[p1 [res err]] w1] evs1].
  cbv zeta in F.
  destruct F as (Hp1 & _ & _ & _ & Hnow & _ & _ & _ & _ & _ & Hpay & Hw).
  rewrite writes_app. cbn [writes]. rewrite app_nil_r.
  assert (Hmono : now w <= now w1).
  { destruct (Sub (now w) (lastCmd p) <? Millisecond * 500);
      unfold Millisecond in *; lia. }
  split; [reflexivity|].
  split; [rewrite Hp1; reflexivity|].
  split; [exact Hmono|].
  split; [exact Hpay|].
  intros t pay Hin. apply Hw in Hin.
  destruct (Sub (now w) (lastCmd p) <? Millisecond * 500) eqn:G.
  - unfold Millisecond in *. lia.
  - apply saturated_guard_false in G. unfold Millisecond in *. lia.
Qed.

Lemma relay_command_bytes (on : bool) :
  bytes_of (relay_command on) = if on then json_relay_off else json_relay_on.
Proof. destruct on; reflexivity. Qed.

(** X14.  Two toggles of one plug in a row bring the cached flag back to
    where it was and send opposite commands: the frame of the JSON text for
    state 0 and then that for state 1 when the flag was on, the other way
    round when it was off, and the two frames differ.  Their network writes
    are at least 500 ms apart, however little time passes between the
    calls. *)
Theorem toggle_twice (p : plug) (w : world) :
  let '(p1, _, w1, evs1) := toggle p w in
  forall w2,
    now w1 <= now w2 ->
    let '(p2, _, _, evs2) := toggle p1 w2 in
    On p2 = On p /\
    map snd (writes evs1) =
      (if reaches_write (outcome (net w (conns w)))
       then [encrypt (if On p then json_relay_off else json_relay_on)]
       else []) /\
    map snd (writes evs2) =
      (if reaches_write (outcome (net w2 (conns w2)))
       then [encrypt (if On p then json_relay_on else json_relay_off)]
       else []) /\
    encrypt json_relay_off <> encrypt json_relay_on /\
    forall t1 pay1 t2 pay2,
      In (t1, pay1) (writes evs1) ->
      In (t2, pay2) (writes evs2) ->
      t1 + Millisecond * 500 <= t2.
Proof.
  pose proof (toggle_wire p w) as F1.
  destruct (toggle p w) as [[[p1 err1] w1] evs1].
  destruct F1 as (Hon1 & Hlast1 & Hmono1 & Hpay1 & Hw1).
  intros w2 Hlater.
  pose proof (toggle_wire p1 w2) as F2.
  destruct (toggle p1 w2) as [[[p2 err2] w3] evs2].
  destruct F2 as (Hon2 & _ & _ & Hpay2 & Hw2).
  rewrite relay_command_bytes in Hpay1, Hpay2. rewrite Hon1 in Hpay2.
  split; [rewrite Hon2, Hon1; apply negb_involutive|].
  split; [exact Hpay1|].
  split; [rewrite Hpay2; destruct (On p); reflexivity|].
  split; [exact relay_frames_differ|].
  intros t1 pay1 t2 pay2 Hin1 Hin2.
  apply Hw1 in Hin1 as [Ht1 _]. apply Hw2 in Hin2 as [_ Ht2].
  specialize (Ht2 ltac:(lia)). lia.
Qed.

Lemma toggle_twice_witness :
  let w := world_of startup (fun _ => Reads []) in
  let w1 := snd (fst (toggle plug_a w)) in
  let p1 := fst (fst (fst (toggle plug_a w))) in
  now w1 <= now w1 /\
  On (fst (fst (fst (toggle p1 w1)))) = On plug_a.
Proof.
  intros w w1 p1. split; [apply Z.le_refl|].
  pose proof (toggle_twice plug_a w) as H. subst w1 p1.
  destruct (toggle plug_a w) as [[[q e] v] evs1]. cbn [fst snd].
  specialize (H v (Z.le_refl _)).
  destruct (toggle q v) as [[[q2 e2] v2] evs2]. cbn [fst].
  destruct H as [H _]. exact H.
Defined.

(** ** The start-up query pass, further *)


Section MoreQueries.

Variable Unmarshal : list byte -> option info.


(** X15.  [getSystemInfo] returns as many plugs as it was given, in the
    same order, each with the address and the trigger key it had: the pass
    may write the name, the model, the flag and [lastCmd], and nothing
    else. *)
Theorem getSystemInfo_identity (plugs : list plug) :
  forall w,
    let '(plugs', _, _) := getSystemInfo Unmarshal plugs w in
    Forall2 (fun p p' => IPAddress p' = IPAddress p /\
                         TriggerKey p' = TriggerKey p) plugs plugs'.
Proof.
  induction plugs as [|p rest IH]; intros w.
  - cbn. constructor.
  - rewrite getSystemInfo_cons.
    pose proof (systemInfo_facts Unmarshal p w) as F.
    destruct (systemInfo Unmarshal p w) as [[[p1 [i [e|]]] w1] evs1];
      destruct F as (Hp1 & _).
    + constructor; [rewrite Hp1; split; reflexivity|].
      clear. induction rest; constructor; [split; reflexivity|assumption].
    + specialize (IH w1).
      destruct (getSystemInfo Unmarshal rest w1) as [[rest' w2] evs2].
      cbv zeta. constructor; [|exact IH].
      rewrite Hp1. split; reflexivity.
Qed.


(** X17.  [systemInfo] decodes what the one call of [conn.Read]
    delivered and nothing more.  If that call delivers the first [k] bytes
    of the frame of a plaintext [J], [systemInfo] returns what
    [json.Unmarshal] makes of the first [min k 2048 - 4] bytes of [J]; when
    the decoder rejects them, as it does a JSON text that arrived in part,
    it returns the zero value and the decoding error. *)
Theorem systemInfo_decodes (p : plug) (w : world) (J : list byte)
        (k : nat) :
  outcome (net w (conns w)) = Reads (firstn k (encrypt J)) ->
  let '(_, (i, err), _, _) := systemInfo Unmarshal p w in
  match Unmarshal (firstn (Nat.min k 2048 - 4) J) with
  | Some i' => i = i' /\ err = None
  | None => i = system_zero /\ err = Some ErrUnmarshal
  end.
Proof.
  intros Ho. unfold systemInfo. run. rewrite Ho.
  pose proof (decrypt_delivered k J) as D.
  split_cases; rewrite D;
    destruct (Unmarshal (firstn (Nat.min k 2048 - 4) J)); split; reflexivity.
Qed.

End MoreQueries.


Lemma systemInfo_decodes_witness :
  let w := world_of startup
             (fun _ => Reads (firstn 5 (encrypt (bytes_of "{}")))) in
  outcome (net w (conns w)) = Reads (firstn 5 (encrypt (bytes_of "{}"))) /\
  snd (fst (fst (systemInfo Unmarshal_empty_object plug_a w))) =
    (system_zero, Some ErrUnmarshal).
Proof.
  intros w. split; [reflexivity|].
  pose proof (systemInfo_decodes Unmarshal_empty_object plug_a w
                (bytes_of "{}") 5 eq_refl) as H.
  destruct (systemInfo Unmarshal_empty_object plug_a w)
    as [[[q [i err]] v] evs].
  cbn [fst snd].
  change (Unmarshal_empty_object
            (firstn (Nat.min 5 2048 - 4) (bytes_of "{}")))
    with (@None info) in H.
  destruct H as [-> ->]. reflexivity.
Defined.

(** ** The event loop, further *)

(** The world once [term.PollEvent] has delivered the event. *)
Lemma listen_cons (event : Event) (more : list Event) (plugs : list plug)
      (w : world) :
  listen (event :: more) plugs w =
    let '(r, w', evs) := loop_body event plugs w in
    match r with
    | Return => (plugs, Returned, w', evs)
    | Continue plugs' =>
        let '(x, w'', evs') := listen more plugs' w' in
        (x, w'', evs ++ evs')
    end.
Proof.
  cbn [listen]. unfold bind at 1.
  destruct (loop_body event plugs w) as [[[plugs'|] w'] evs].
  - destruct (listen more plugs' w') as [[x w''] evs']. reflexivity.
  - unfold ret. rewrite app_nil_r. reflexivity.
Qed.

Lemma loop_body_interrupt (event : Event) (plugs : list plug) (w : world) :
  is_interrupt event = true ->
  loop_body event plugs w =
    (Return, mkWorld (now w + Z.of_N (wait event)) (conns w) (net w),
     [(now w, EvPrint OutListening)]).
Proof.
  unfold is_interrupt, loop_body. intros H.
  apply andb_prop in H as [Ht Hk]. rewrite Ht, Hk. reflexivity.
Qed.

Lemma loop_body_continue (event : Event) (plugs : list plug) (w : world) :
  is_interrupt event = false ->
  let w0 := mkWorld (now w + Z.of_N (wait event)) (conns w) (net w) in
  loop_body event plugs w =
    if EventType_eqb (Type_ event) EventKey then
      let '(plugs', w1, evs1) := range_plugs (Key event) plugs w0 in
      (Continue plugs', w1, (now w, EvPrint OutListening) :: evs1)
    else (Continue plugs, w0, [(now w, EvPrint OutListening)]).
Proof.
  intros H w0. unfold is_interrupt in H. unfold loop_body.
  destruct (EventType_eqb (Type_ event) EventKey); [|reflexivity].
  cbn [andb negb] in H |- *. rewrite H.
  unfold bind, Println, emit, elapse, ret. fold w0.
  destruct (range_plugs (Key event) plugs w0) as [[plugs' w1] evs1].
  cbn [app]. rewrite app_nil_r. reflexivity.
Qed.

(** X18.  The loop returns exactly when a Ctrl-C key event arrives:
    over a finite list of events it has returned if one of them is the key
    Ctrl-C, and is still waiting in [PollEvent] otherwise.  No error of a
    plug and no other event ends it. *)
Theorem listen_ending (events : list Event) :
  forall plugs w,
    snd (fst (fst (listen events plugs w))) =
      if existsb is_interrupt events then Returned else Polling.
Proof.
  induction events as [|event more IH]; intros plugs w; [reflexivity|].
  rewrite listen_cons. cbn [existsb].
  destruct (is_interrupt event) eqn:E.
  - rewrite (loop_body_interrupt event plugs w E). reflexivity.
  - cbn [orb]. rewrite (loop_body_continue event plugs w E). cbv zeta.
    destruct (EventType_eqb (Type_ event) EventKey).
    + destruct (range_plugs (Key event) plugs _) as [[plugs' w1] evs1].
      specialize (IH plugs' w1).
      destruct (listen more plugs' w1) as [[x w2] evs2]. exact IH.
    + match goal with
      | |- context [listen more plugs ?v] =>
          specialize (IH plugs v); destruct (listen more plugs v) as [[x w2] evs2]
      end. exact IH.
Qed.

(** X19.  Events that arrive after a Ctrl-C key event are never read:
    whatever follows it, the plugs, the world and the trace are those of
    the run that ends with it. *)
Theorem listen_ignores_rest (pre post : list Event) (c : Event) :
  is_interrupt c = true ->
  forall plugs w,
    listen (pre ++ c :: post) plugs w = listen (pre ++ [c]) plugs w.
Proof.
  intros Hc. induction pre as [|event pre IH]; intros plugs w.
  - cbn [app]. rewrite !listen_cons, (loop_body_interrupt c plugs w Hc).
    reflexivity.
  - cbn [app]. rewrite !listen_cons.
    destruct (loop_body event plugs w) as [[[plugs'|] w'] evs];
      [|reflexivity].
    rewrite IH. reflexivity.
Qed.

Lemma listen_ignores_rest_witness :
  is_interrupt (mkEvent EventKey 3 0) = true /\
  listen ([mkEvent EventKey 49 0] ++ mkEvent EventKey 3 0
            :: [mkEvent EventKey 49 0]) [plug_a]
         (world_of startup (fun _ => Reads [])) =
  listen ([mkEvent EventKey 49 0] ++ [mkEvent EventKey 3 0]) [plug_a]
         (world_of startup (fun _ => Reads [])).
Proof.
  split; [reflexivity|].
  apply (listen_ignores_rest [mkEvent EventKey 49 0] [mkEvent EventKey 49 0]
           (mkEvent EventKey 3 0) eq_refl).
Defined.

Lemma kept_by_loop_refl (p : plug) : kept_by_loop p p.
Proof.
  split; [destruct p; reflexivity|reflexivity].
Qed.

Lemma kept_by_loop_trans (p q r : plug) :
  kept_by_loop p q -> kept_by_loop q r -> kept_by_loop p r.
Proof.
  intros [Hq Hq3] [Hr Hr3]. split.
  - rewrite Hr, Hq. destruct p; reflexivity.
  - intros H3. specialize (Hq3 H3). subst q. exact (Hr3 H3).
Qed.

Lemma Forall2_kept_refl (plugs : list plug) : Forall2 kept_by_loop plugs plugs.
Proof.
  induction plugs; constructor; [apply kept_by_loop_refl|assumption].
Qed.

Lemma Forall2_kept_trans (a b c : list plug) :
  Forall2 kept_by_loop a b -> Forall2 kept_by_loop b c ->
  Forall2 kept_by_loop a c.
Proof.
  intros Hab. revert c.
  induction Hab as [|x y a b Hxy Hab IH]; intros c Hbc.
  - inversion Hbc. constructor.
  - inversion Hbc as [|? z ? c' Hyz Hbc']; subst.
    constructor; [apply (kept_by_loop_trans x y z); assumption|].
    apply IH. exact Hbc'.
Qed.

Lemma toggled_or_kept_is_kept (key : Z) (a b : list plug) :
  (key =? KeyCtrlC) = false ->
  Forall2 (toggled_or_kept key) a b -> Forall2 kept_by_loop a b.
Proof.
  intros Hkey H. induction H as [|p p' a b Hp H IH]; constructor; [|exact IH].
  unfold toggled_or_kept in Hp. unfold kept_by_loop.
  destruct (matches key p) eqn:Hm.
  - destruct Hp as [_ Hp]. split; [exact Hp|].
    unfold matches in Hm |- *. apply Z.eqb_eq in Hm. rewrite Hm, Hkey.
    discriminate.
  - subst p'. apply kept_by_loop_refl.
Qed.

(** X20.  Across a whole run of the event loop, however many events it
    handles, the loop keeps the number and the order of the plugs and
    changes nothing of a plug but [On] and [lastCmd]; a plug whose trigger
    key is Ctrl-C is never toggled at all, since that key ends the loop
    before the plugs are looked at. *)
Theorem listen_keeps_plugs (events : list Event) :
  forall plugs w,
    Forall2 kept_by_loop plugs (fst (fst (fst (listen events plugs w)))).
Proof.
  induction events as [|event more IH]; intros plugs w.
  - cbn. apply Forall2_kept_refl.
  - rewrite listen_cons.
    destruct (is_interrupt event) eqn:E.
    + rewrite (loop_body_interrupt event plugs w E). cbn [fst].
      apply Forall2_kept_refl.
    + rewrite (loop_body_continue event plugs w E). cbv zeta.
      unfold is_interrupt in E.
      destruct (EventType_eqb (Type_ event) EventKey).
      * cbn [andb] in E.
        pose proof (range_plugs_spec (Key event) plugs
                      (mkWorld (now w + Z.of_N (wait event)) (conns w)
                         (net w))) as S.
        destruct (range_plugs (Key event) plugs _) as [[plugs' w1] evs1].
        destruct S as (_ & _ & S).
        specialize (IH plugs' w1).
        destruct (listen more plugs' w1) as [[[x e] w2] evs2].
        cbn [fst] in IH |- *.
        apply (Forall2_kept_trans plugs plugs' x); [|exact IH].
        apply (toggled_or_kept_is_kept (Key event)); assumption.
      * match goal with
        | |- context [listen more plugs ?v] =>
            specialize (IH plugs v);
            destruct (listen more plugs v) as [[[x e] w2] evs2]
        end. exact IH.
Qed.

Lemma spaced_app (ts1 ts2 : list Z) :
  spaced ts1 -> spaced ts2 ->
  (forall t1 t2, In t1 ts1 -> In t2 ts2 -> t1 + Millisecond * 500 <= t2) ->
  spaced (ts1 ++ ts2).
Proof.
  induction ts1 as [|t rest IH]; intros H1 H2 Hx; [exact H2|].
  cbn [app spaced] in *. destruct H1 as [Hhead Hrest]. split.
  - destruct rest as [|t' rest'].
    + cbn [app]. destruct ts2 as [|t2 ts2']; [exact I|].
      apply Hx; left; reflexivity.
    + exact Hhead.
  - apply IH; [exact Hrest|exact H2|].
    intros t1 t2 Hin1 Hin2. apply Hx; [right; exact Hin1|exact Hin2].
Qed.

Lemma spaced_short (ts : list Z) : (List.length ts <= 1)%nat -> spaced ts.
Proof.
  destruct ts as [|t [|t' rest]]; cbn; intros H; try lia; repeat split.
Qed.

(** One key event on a list of one plug. *)
Lemma range_plugs_single (key : Z) (p : plug) (w : world) :
  lastCmd p <= now w ->
  let '(plugs', w', evs) := range_plugs key [p] w in
  exists p',
    plugs' = [p'] /\
    lastCmd p <= lastCmd p' /\
    lastCmd p' <= now w' /\
    now w <= now w' /\
    (List.length (map fst (writes evs)) <= 1)%nat /\
    Forall (fun t => lastCmd p + Millisecond * 500 <= t /\ t <= lastCmd p')
      (map fst (writes evs)).
Proof.
  intros Hlast. destruct (matches key p) eqn:Hm.
  - rewrite (range_plugs_match key p [] w Hm).
    pose proof (toggle_wire p w) as F.
    destruct (toggle p w) as [[[p' err] w'] evs1].
    destruct F as (_ & Hl & Hmono & Hpay & Hw).
    cbn [range_plugs]. unfold ret. cbv beta iota zeta.
    assert (Hlen : (List.length (map fst (writes evs1)) <= 1)%nat).
    { rewrite length_map, <- (length_map snd), Hpay.
      destruct (reaches_write _); cbn; lia. }
    assert (Hall : Forall (fun t => lastCmd p + Millisecond * 500 <= t /\
                                    t <= lastCmd p')
                     (map fst (writes evs1))).
    { apply Forall_forall. intros t Hin.
      apply in_map_iff in Hin as [[t' pay] [<- Hin]]. cbn [fst].
      apply Hw in Hin as [Hrange Hguard]. specialize (Hguard Hlast). lia. }
    exists p'. cbn [writes]. rewrite !writes_app.
    destruct err as [e|]; cbn [writes app]; rewrite !app_nil_r;
      (split; [reflexivity|]; split; [lia|]; split; [lia|];
       split; [exact Hmono|]; split; [exact Hlen|exact Hall]).
  - rewrite (range_plugs_skip key p [] w Hm).
    cbn [range_plugs]. unfold ret.
    exists p. cbn. repeat split; try lia. constructor.
Qed.

Lemma listen_single (events : list Event) :
  forall p w,
    lastCmd p <= now w ->
    let '(plugs', _, w', evs) := listen events [p] w in
    exists p',
      plugs' = [p'] /\
      lastCmd p <= lastCmd p' /\
      lastCmd p' <= now w' /\
      spaced (map fst (writes evs)) /\
      Forall (fun t => lastCmd p + Millisecond * 500 <= t /\ t <= lastCmd p')
        (map fst (writes evs)).
Proof.
  induction events as [|event more IH]; intros p w Hlast.
  - cbn. exists p. repeat split; try lia. constructor.
  - rewrite listen_cons.
    assert (Hwait : lastCmd p <= now w + Z.of_N (wait event)) by lia.
    destruct (is_interrupt event) eqn:E.
    + rewrite (loop_body_interrupt event [p] w E).
      exists p. cbn. repeat split; try lia. constructor.
    + rewrite (loop_body_continue event [p] w E). cbv zeta.
      destruct (EventType_eqb (Type_ event) EventKey).
      * pose proof (range_plugs_single (Key event) p
                      (mkWorld (now w + Z.of_N (wait event)) (conns w)
                         (net w)) Hwait) as S.
        destruct (range_plugs (Key event) [p] _) as [[plugs1 w1] evs1].
        destruct S as (p1 & -> & Hle & Hnow & _ & Hlen & Hall).
        specialize (IH p1 w1 Hnow).
        destruct (listen more [p1] w1) as [[[x e] w2] evs2].
        destruct IH as (p2 & -> & Hle2 & Hnow2 & Hsp2 & Hall2).
        exists p2. cbn [app writes]. rewrite writes_app, map_app.
        split; [reflexivity|]. split; [lia|]. split; [exact Hnow2|].
        rewrite Forall_forall in Hall, Hall2. split.
        -- apply spaced_app; [apply spaced_short; exact Hlen|exact Hsp2|].
           intros t1 t2 H1 H2. apply Hall in H1. apply Hall2 in H2. lia.
        -- apply Forall_forall. intros t Hin. apply in_app_or in Hin as [H|H].
           ++ apply Hall in H. lia.
           ++ apply Hall2 in H. lia.
      * specialize (IH p (mkWorld (now w + Z.of_N (wait event)) (conns w)
                               (net w)) Hwait).
        match goal with
        | |- context [listen more [p] ?v] =>
            destruct (listen more [p] v) as [[[x e] w2] evs2]
        end.
        destruct IH as (p2 & -> & Hle2 & Hnow2 & Hsp2 & Hall2).
        exists p2. cbn [app writes]. repeat split; assumption.
Qed.

(** X21.  With one plug configured, the network writes of a whole run of
    the event loop are at least 500 ms apart, however fast the keys arrive
    and whatever the device does, provided the plug's last command does not
    lie in the future when the loop starts. *)
Theorem listen_single_plug_spaced (events : list Event) (p : plug)
        (w : world) :
  lastCmd p <= now w ->
  let '(_, _, evs) := listen events [p] w in
  spaced (map fst (writes evs)).
Proof.
  intros Hlast. pose proof (listen_single events p w Hlast) as H.
  destruct (listen events [p] w) as [[[x e] w'] evs].
  destruct H as (p' & _ & _ & _ & H & _). exact H.
Qed.

Lemma listen_single_plug_spaced_witness :
  let w := world_of startup (fun _ => Reads []) in
  let events := [mkEvent EventKey 49 0; mkEvent EventKey 49 0] in
  lastCmd plug_a <= now w /\
  map fst (writes (snd (listen events [plug_a] w))) =
    [startup; startup + 500 * Millisecond] /\
  spaced (map fst (writes (snd (listen events [plug_a] w)))).
Proof.
  intros w events.
  assert (Hlast : lastCmd plug_a <= now w) by (vm_compute; discriminate).
  split; [exact Hlast|]. split; [vm_compute; reflexivity|].
  pose proof (listen_single_plug_spaced events plug_a w Hlast) as H.
  destruct (listen events [plug_a] w) as [[x v] evs]. exact H.
Defined.

(** ** The start of [main] *)

(** X22.  [main] touches no device unless it is configured well: with a
    number of arguments other than two it prints the usage line and exits
    with status 1; with a mapping that contains a rejected pair it panics.
    In both cases no event is read, no address is dialled and the clock has
    not moved. *)
Theorem main_configuration_errors (Unmarshal : list byte -> option info)
        (Args : list string) (initOk : bool) (events : list Event)
        (w : world) :
  (List.length Args <> 2%nat ->
   main Unmarshal Args initOk events w =
     ([], Exited 1, w, [(now w, EvPrint OutUsage)])) /\
  (List.length Args = 2%nat -> initOk = true ->
   existsb rejected (Split (nth 1 Args EmptyString) ",") = true ->
   exists e, main Unmarshal Args initOk events w = ([], Panicked e, w, [])).
Proof.
  unfold main. split.
  - intros Hlen. apply Nat.eqb_neq in Hlen. rewrite Hlen. reflexivity.
  - intros Hlen -> Hrej. rewrite Hlen. cbn [Nat.eqb negb].
    unfold processMapping.
    destruct (processMapping_loop_spec
                (Split (nth 1 Args EmptyString) ",") []) as [_ Hbad].
    destruct (Hbad Hrej) as [e He]. rewrite He. exists e. reflexivity.
Qed.

Lemma main_configuration_errors_witness :
  let w := world_of startup (fun _ => Reads []) in
  (List.length ["kasa-internal"] <> 2%nat /\
   main Unmarshal_empty_object ["kasa-internal"] true [] w =
     ([], Exited 1, w, [(now w, EvPrint OutUsage)])) /\
  (List.length ["kasa-internal"; "10.0.0.5:abc"] = 2%nat /\
   existsb rejected
     (Split (nth 1 ["kasa-internal"; "10.0.0.5:abc"] EmptyString) ",") = true /\
   exists e,
     main Unmarshal_empty_object ["kasa-internal"; "10.0.0.5:abc"] true
       [mkEvent EventKey 49 0] w = ([], Panicked e, w, [])).
Proof.
  intros w. split.
  - split; [discriminate|].
    apply (proj1 (main_configuration_errors Unmarshal_empty_object
                    ["kasa-internal"] true [] w)).
    discriminate.
  - split; [reflexivity|]. split; [reflexivity|].
    apply (proj2 (main_configuration_errors Unmarshal_empty_object
                    ["kasa-internal"; "10.0.0.5:abc"] true
                    [mkEvent EventKey 49 0] w)); reflexivity.
Defined.

(** ** The earlier variant of the codec *)

Lemma Earlier_encrypt_loop_eq (P : list byte) :
  forall key, Earlier.encrypt_loop key P = encrypt_loop (int_of_byte key) P.
Proof.
  induction P as [|p rest IH]; intros key; [reflexivity|].
  cbn [Earlier.encrypt_loop encrypt_loop]. unfold Earlier.xor_byte.
  rewrite (Z.lxor_comm (int_of_byte p)). f_equal.
  rewrite IH. f_equal. apply int_of_byte_of_int.
  apply lxor_byte_range; apply int_of_byte_range.
Qed.

Lemma Earlier_decrypt_loop_eq (bx : list byte) :
  forall key, Earlier.decrypt_loop key bx = decrypt_loop (int_of_byte key) bx.
Proof.
  induction bx as [|c rest IH]; intros key; [reflexivity|].
  cbn [Earlier.decrypt_loop decrypt_loop]. unfold Earlier.xor_byte.
  rewrite (Z.lxor_comm (int_of_byte c)), IH. reflexivity.
Qed.

(** X23.  The two variants of the program frame a command alike: the
    earlier [encrypt], which keeps the key in a byte, produces for every
    string the bytes that the later [encrypt] produces. *)
Theorem Earlier_encrypt_agrees (plaintext : string) :
  Earlier.encrypt plaintext = encrypt (bytes_of plaintext).
Proof.
  unfold Earlier.encrypt, encrypt. f_equal.
  apply Earlier_encrypt_loop_eq.
Qed.

(** X24.  The earlier [decrypt] deciphers all of its argument and leaves
    the length prefix to its caller: applied to a reply without its first
    four bytes it gives what the later [decrypt] gives on the whole reply,
    and so it undoes either [encrypt]. *)
Theorem Earlier_decrypt_agrees (bx : list byte) (plaintext : string) :
  Earlier.decrypt (skipn 4 bx) = decrypt bx /\
  Earlier.decrypt (skipn 4 (Earlier.encrypt plaintext)) = bytes_of plaintext.
Proof.
  assert (H : forall l, Earlier.decrypt (skipn 4 l) = decrypt l).
  { intros l. unfold Earlier.decrypt, decrypt.
    apply Earlier_decrypt_loop_eq. }
  split; [apply H|].
  rewrite H. unfold Earlier.encrypt, PutUint32. cbn [app].
  rewrite decrypt_skips_prefix, Earlier_encrypt_loop_eq.
  apply decrypt_loop_encrypt_loop. apply int_of_byte_range.
Qed.

(** X25.  On a reply of fewer than four bytes the earlier [systemInfo]
    ends in a run-time panic, where the later code deciphers such a reply to
    the empty plaintext; on a reply of four bytes or more it decodes the
    very plaintext that the later [decrypt] produces. *)
Theorem Earlier_systemInfo_short_reply
        (Unmarshal : list byte -> option info) (reading : list byte) :
  ((List.length reading < 4)%nat ->
   Earlier.systemInfo Unmarshal reading None = Earlier.SliceBoundsPanic /\
   decrypt reading = []) /\
  ((4 <= List.length reading)%nat ->
   Earlier.systemInfo Unmarshal reading None =
     match Unmarshal (decrypt reading) with
     | None => Earlier.Done system_zero (Some ErrUnmarshal)
     | Some i => Earlier.Done i None
     end).
Proof.
  unfold Earlier.systemInfo. split; intros Hlen.
  - apply Nat.ltb_lt in Hlen as Hb. rewrite Hb. split; [reflexivity|].
    unfold decrypt. rewrite skipn_all2 by lia. reflexivity.
  - apply Nat.ltb_ge in Hlen. rewrite Hlen.
    unfold Earlier.decrypt, decrypt. rewrite Earlier_decrypt_loop_eq.
    reflexivity.
Qed.

Lemma Earlier_systemInfo_short_reply_witness :
  ((List.length [x00; x00] < 4)%nat /\
   Earlier.systemInfo Unmarshal_empty_object [x00; x00] None =
     Earlier.SliceBoundsPanic) /\
  ((4 <= List.length reply_empty_object)%nat /\
   Earlier.systemInfo Unmarshal_empty_object reply_empty_object None =
     Earlier.Done system_zero None).
Proof.
  split.
  - split; [cbn; lia|].
    apply (proj1 (Earlier_systemInfo_short_reply Unmarshal_empty_object
                    [x00; x00])). cbn. lia.
  - assert (Hlen : (4 <= List.length reply_empty_object)%nat)
      by (vm_compute; lia).
    split; [exact Hlen|].
    rewrite (proj2 (Earlier_systemInfo_short_reply Unmarshal_empty_object
                      reply_empty_object) Hlen).
    reflexivity.
Defined.

(** ** The version string *)

Lemma Cut_spec (s : string) (sep : ascii) :
  let '(before, after, found) := Cut s sep in
  occurs sep before = false /\
  found = occurs sep s /\
  (found = true -> s = (before ++ String sep after)%string) /\
  (found = false -> before = s /\ after = EmptyString).
Proof.
  induction s as [|c rest IH]; cbn [Cut occurs].
  - repeat split; discriminate.
  - destruct (Ascii.eqb c sep) eqn:E.
    + apply Ascii.eqb_eq in E. subst c.
      repeat split; try reflexivity; discriminate.
    + destruct (Cut rest sep) as [[before after] found].
      destruct IH as (Hb & Hf & Ht & Hn).
      cbn [occurs String.append orb]. rewrite E. cbn [orb].
      split; [exact Hb|]. split; [exact Hf|]. split.
      * intros H. rewrite (Ht H) at 1. reflexivity.
      * intros H. destruct (Hn H) as [-> ->]. split; reflexivity.
Qed.

(** X26.  [parseVersion] cuts at the first underscore: when the string
    has one, the version has none and version, underscore and commit put
    together give the string back; when it has none, both results are
    empty. *)
Theorem parseVersion_split (versionString : string) :
  let '(version, commit) := parseVersion versionString in
  if occurs "_" versionString
  then occurs "_" version = false /\
       versionString = (version ++ "_" ++ commit)%string
  else version = EmptyString /\ commit = EmptyString.
Proof.
  unfold parseVersion.
  pose proof (Cut_spec versionString "_") as H.
  destruct (Cut versionString "_") as [[before after] found].
  destruct H as (Hb & Hf & Ht & _). rewrite <- Hf.
  destruct found; cbn [negb].
  - split; [exact Hb|]. apply Ht. reflexivity.
  - split; reflexivity.
Qed.

(** X27.  [parseVersion] undoes the way a build stamps its version: for
    a version without an underscore, the string made of the version, an
    underscore and the commit parses back to that version and that
    commit, whatever the commit contains. *)
Theorem parseVersion_join (version commit : string) :
  occurs "_" version = false ->
  parseVersion (version ++ "_" ++ commit) = (version, commit).
Proof.
  intros Hv. unfold parseVersion.
  assert (H : Cut (version ++ String "_" commit) "_" = (version, commit, true)).
  { induction version as [|c rest IH]; [reflexivity|].
    cbn [occurs] in Hv. apply orb_false_elim in Hv as [Hc Hrest].
    cbn [String.append Cut]. rewrite Hc, (IH Hrest). reflexivity. }
  cbn [String.append]. rewrite H. reflexivity.
Qed.

Lemma parseVersion_join_witness :
  occurs "_" "0.0.dev" = false /\
  parseVersion ("0.0.dev" ++ "_" ++ "000000") = ("0.0.dev", "000000").
Proof.
  split; [reflexivity|].
  apply (parseVersion_join "0.0.dev" "000000"). reflexivity.
Defined.

(** X28.  [contains] decides membership: it answers true exactly for the
    strings that are elements of the slice. *)
Theorem contains_In (s : list string) (e : string) :
  contains s e = true <-> In e s.
Proof.
  induction s as [|a rest IH]; cbn [contains In].
  - split; [discriminate|contradiction].
  - destruct (String.eqb a e) eqn:E.
    + apply String.eqb_eq in E. split; [intros _; left; exact E|reflexivity].
    + apply String.eqb_neq in E. rewrite IH. split.
      * intros H. right. exact H.
      * intros [H|H]; [contradiction|exact H].
Qed.
